(** * file-cleaner: the tree model, the sorter, the deletion engine and the
      navigation loop of [cleaner.c], with the properties of its specification.

    The C program keeps one mutable tree of [struct file] / [struct directory]
    nodes, linked by [next] (siblings), [subdirs] (first child) and [parent].
    The embedding is shallow:

    - a node is a value of [file]; the [next]-linked list hanging off
      [subdirs] is a Rocq list; the constructor records which of the two
      structs was allocated, the [type] field is kept as the byte the code
      stores;
    - a pointer into the tree (the cursor [cur] of [main], the argument of
      [remove_file]) is a [cursor]: the node together with the chain of its
      ancestors, nearest first, which is what following [parent] yields;
      [NULL] is [None];
    - the process is a state-and-exit monad [M]: a computation returns, leaves
      through [exit(3)] (which is how [err(3)] ends), or faults (undefined
      behaviour or a failed [assert]);
    - [unlink] and [rmdir] are answered by the [kernel] of the state, a
      function of the calls made so far, so that nothing is assumed about
      the disk; what [lstat], [opendir] and [readdir] answer during the
      build is the input [fs_entry] of [build_tree];
    - of the heap only one fact is kept, whether the root block has been
      freed, since [tree] of [main] is the one pointer the program keeps
      besides the cursor.

    Text written to stdout (the table of [print_node], with the
    floating-point formatting of [build_size_representation]) and the
    working directory are not modelled; allocation is assumed to succeed. *)

From Stdlib Require Import List ZArith Lia Bool String Ascii Permutation Sorted.
From Equations Require Import Equations.
Import ListNotations.
Set Warnings "-register-all".
Local Open Scope string_scope.
Local Open Scope Z_scope.

(* ===================================================================== *)
(** * Constants of the source and of <sys/stat.h> *)
(* ===================================================================== *)

Definition FILE_TYPE_OFFSET : Z := 12.
Definition DIRECTORY_UNLISTABLE : Z := 16.   (* 020 *)
Definition S_IFMT : Z := 61440.              (* 0170000 *)
Definition S_IFDIR : Z := 16384.             (* 0040000 *)

(** [S_IFDIR >> FILE_TYPE_OFFSET], the value [type] is compared with. *)
Definition TYPE_DIR : Z := Z.shiftr S_IFDIR FILE_TYPE_OFFSET.

Definition S_ISDIR (mode : Z) : bool := Z.land mode S_IFMT =? S_IFDIR.

(** [off_t] is a signed 64-bit integer. *)
Definition OFF_MIN : Z := - 2 ^ 63.
Definition OFF_MAX : Z := 2 ^ 63 - 1.
Definition in_off_t (z : Z) : bool := (OFF_MIN <=? z) && (z <=? OFF_MAX).

(* ===================================================================== *)
(** * Data model *)
(* ===================================================================== *)

(** [struct file] and [struct directory].  [File] is a node allocated with
    [sizeof(struct file)], [Directory] one allocated with
    [sizeof(struct directory)].  [subdirs_sorted] is [None] while the field
    has never been written ([build_tree] leaves it so for a directory it
    could not open). *)
Inductive file : Type :=
| File (name : string) (size : Z) (type : Z)
| Directory (name : string) (size : Z) (type : Z)
            (subdirs : list file) (self_size : Z)
            (subdirs_sorted : option bool).

Definition name (f : file) : string :=
  match f with File n _ _ => n | Directory n _ _ _ _ _ => n end.

Definition size (f : file) : Z :=
  match f with File _ z _ => z | Directory _ z _ _ _ _ => z end.

Definition type (f : file) : Z :=
  match f with File _ _ t => t | Directory _ _ t _ _ _ => t end.

(** The children of a node, for statements: a [File] has none. *)
Definition children (f : file) : list file :=
  match f with File _ _ _ => [] | Directory _ _ _ l _ _ => l end.

(** One ancestor of the node a cursor points to: the fields of that
    directory, and its children split around the child on the path
    ([fr_before] in list order, then the child, then [fr_after]). *)
Record frame : Type := mkFrame {
  fr_name : string;
  fr_size : Z;
  fr_type : Z;
  fr_before : list file;
  fr_after : list file;
  fr_self_size : Z;
  fr_sorted : option bool
}.

(** A non-NULL [struct file *] into the tree: the node and its [parent]
    chain, nearest ancestor first; the chain of the root is empty. *)
Definition cursor : Type := (file * list frame)%type.

(** The directory of a frame with child [f] put back in its place. *)
Definition plug (fr : frame) (f : file) : file :=
  Directory (fr_name fr) (fr_size fr) (fr_type fr)
            (fr_before fr ++ f :: fr_after fr)
            (fr_self_size fr) (fr_sorted fr).

(** The directory of a frame once the child on the path is unlinked. *)
Definition plug_removed (fr : frame) : file :=
  Directory (fr_name fr) (fr_size fr) (fr_type fr)
            (fr_before fr ++ fr_after fr)
            (fr_self_size fr) (fr_sorted fr).

(** The whole tree a cursor points into ([tree] of [main]). *)
Fixpoint root_of (f : file) (ctx : list frame) : file :=
  match ctx with
  | [] => f
  | fr :: up => root_of (plug fr f) up
  end.

(* ===================================================================== *)
(** * The process monad *)
(* ===================================================================== *)

Inductive syscall : Type :=
| Unlink (path : string)
| Rmdir (path : string).

(** The answer of the kernel to a call, given the calls made before it:
    [None] is return value 0, [Some e] is -1 with [errno = e]. *)
Definition kernel : Type := list syscall -> syscall -> option Z.

Record state : Type := mkState {
  st_kernel : kernel;
  st_trace : list syscall;     (* calls made so far, oldest first *)
  st_stderr : list string;     (* lines written to stderr, oldest first *)
  st_tree_freed : bool         (* the block [tree] of [main] points to
                                  has been passed to [free] *)
}.

(** The state after one more line on stderr. *)
Definition logged (msg : string) (s : state) : state :=
  mkState (st_kernel s) (st_trace s) (st_stderr s ++ [msg])
          (st_tree_freed s).

Inductive fault : Type :=
| NullDereference
| OutOfBoundsRead
| UninitialisedRead
| UseAfterFree
| SignedOverflow
| AssertionFailure.

Inductive outcome (A : Type) : Type :=
| Ret (a : A) (s : state)
| Exit (status : Z) (s : state)
| Fault (why : fault).
Arguments Ret {A} a s.
Arguments Exit {A} status s.
Arguments Fault {A} why.

Definition M (A : Type) : Type := state -> outcome A.

Definition ret {A} (a : A) : M A := fun s => Ret a s.

Definition bind {A B} (m : M A) (k : A -> M B) : M B :=
  fun s => match m s with
           | Ret a s' => k a s'
           | Exit c s' => Exit c s'
           | Fault w => Fault w
           end.

Notation "x <- m ;; k" := (bind m (fun x => k))
  (at level 61, m at next level, right associativity).
Notation "' pat <- m ;; k" := (bind m (fun x => match x with pat => k end))
  (at level 61, pat pattern, m at next level, right associativity).
Notation "m ;;; k" := (bind m (fun _ => k))
  (at level 61, right associativity).

Definition fail {A} (w : fault) : M A := fun _ => Fault w.

(** [fprintf(stderr, ...)]. *)
Definition eprint (msg : string) : M unit :=
  fun s => Ret tt (logged msg s).

(** [exit(status)]: the parent sees the low byte of [status]. *)
Definition exit (status : Z) : M unit :=
  fun s => Exit (Z.land status 255) s.

(** [err(eval, fmt, ...)] of <err.h>: writes the message to stderr and calls
    [exit(eval)].  It does not return (err(3): "The err(), verr(), errx(),
    and verrx() functions do not return, but exit with the value of the
    argument eval"), so what follows a call of [err] in the source is written
    here after it and never runs. *)
Definition err (eval : Z) (msg : string) : M unit :=
  eprint msg ;;; exit eval.

(** A system call: the kernel answers from the trace, the call is appended. *)
Definition sys (c : syscall) : M (option Z) :=
  fun s => Ret (st_kernel s (st_trace s) c)
               (mkState (st_kernel s) (st_trace s ++ [c]) (st_stderr s)
                        (st_tree_freed s)).

(** [free(f)] on the root of the tree, which [tree] of [main] still
    points to. *)
Definition free_root : M unit :=
  fun s => Ret tt (mkState (st_kernel s) (st_trace s) (st_stderr s) true).

(** [a + b] on [off_t]; signed overflow is undefined behaviour. *)
Definition off_add (a b : Z) : M Z :=
  if in_off_t (a + b) then ret (a + b) else fail SignedOverflow.

(* ===================================================================== *)
(** * String helpers *)
(* ===================================================================== *)

Definition slash : ascii := "/"%char.

(** [isspace] in the C locale. *)
Definition isspace (c : ascii) : bool :=
  let n := nat_of_ascii c in
  (Nat.eqb n 32 || (Nat.leb 9 n && Nat.leb n 13))%bool.

Fixpoint last_char (s : string) : option ascii :=
  match s with
  | EmptyString => None
  | String c EmptyString => Some c
  | String _ s' => last_char s'
  end.

(** [concat_path]: [None] when [path_a] is empty, where the source reads
    [path_a[-1]]. *)
Definition concat_path (path_a path_b : string) : option string :=
  match last_char path_a with
  | None => None
  | Some c =>
      if Ascii.eqb c slash then Some (path_a ++ path_b)
      else Some (path_a ++ String slash path_b)
  end.

(** The loop of [get_file_name]: [p] is the rest of the path, [result] the
    suffix found so far. *)
Fixpoint get_file_name_loop (p : string) (prev : bool) (result : string)
  : string :=
  match p with
  | EmptyString => result
  | String c p' =>
      if Ascii.eqb c slash then get_file_name_loop p' true result
      else get_file_name_loop p' false (if prev then p else result)
  end.

Definition get_file_name (path : string) : string :=
  get_file_name_loop path false path.

Fixpoint skip_space (s : string) : string :=
  match s with
  | EmptyString => EmptyString
  | String c s' => if isspace c then skip_space s' else s
  end.

(** What is left of [s] once [end] has walked back over the trailing
    whitespace and [end[1]] is set to NUL. *)
Fixpoint cut_trailing_space (s : string) : string :=
  match s with
  | EmptyString => EmptyString
  | String c s' =>
      match cut_trailing_space s' with
      | EmptyString => if isspace c then EmptyString else String c EmptyString
      | r => String c r
      end
  end.

(** [extract_name]: the line without leading and trailing whitespace. *)
Definition extract_name (line : string) : string :=
  match skip_space line with
  | EmptyString => EmptyString            (* empty line *)
  | start => cut_trailing_space start
  end.

(** [is_empty_line]; [None] is the NULL pointer. *)
Fixpoint all_space (s : string) : bool :=
  match s with
  | EmptyString => true
  | String c s' => if isspace c then all_space s' else false
  end.

Definition is_empty_line (s : option string) : bool :=
  match s with
  | None => true
  | Some s => all_space s
  end.

(** [strsep(&line, " \t\n")]: the first token, and what [line] is set to
    (NULL when no delimiter is found). *)
Definition is_delim (c : ascii) : bool :=
  let n := nat_of_ascii c in
  (Nat.eqb n 32 || Nat.eqb n 9 || Nat.eqb n 10)%bool.

Fixpoint strsep (s : string) : string * option string :=
  match s with
  | EmptyString => (EmptyString, None)
  | String c s' =>
      if is_delim c then (EmptyString, Some s')
      else let (tok, rest) := strsep s' in (String c tok, rest)
  end.

(* ===================================================================== *)
(** * Subdirectory sorter *)
(* ===================================================================== *)

(** The loop of [reverse]: [x] is the part still to relink, [p] the part
    already reversed. *)
Fixpoint reverse_loop (x p : list file) : list file :=
  match x with
  | [] => p
  | c :: x' => reverse_loop x' (c :: p)
  end.

Definition reverse (f : list file) : list file :=
  match f with
  | [] => []
  | h :: x => reverse_loop x [h]
  end.

(** The loop of [merge]: each round unlinks the head of [a] or of [b] and
    pushes it in front of [result]. *)
Fixpoint merge_loop (a : list file) : list file -> list file -> list file :=
  fix from_b (b result : list file) {struct b} : list file :=
    match a, b with
    | [], [] => result
    | x :: a', [] => merge_loop a' [] (x :: result)
    | [], y :: b' => from_b b' (y :: result)
    | x :: a', y :: b' =>
        if size x >? size y then merge_loop a' b (x :: result)
        else from_b b' (y :: result)
    end.

Definition merge (a b : list file) : list file :=
  reverse (merge_loop a b []).

(** [do_merge_sort]; [None] stands for a failed [assert] or a walk off the
    end of the list, which happen when [n] is not the length of [files]. *)
Equations? do_merge_sort (files : list file) (n : nat)
  : option (list file) by wf n lt :=
  do_merge_sort files 0%nat :=
    match files with [] => Some [] | _ => None end;
  do_merge_sort files 1%nat :=
    match files with [f] => Some [f] | _ => None end;
  do_merge_sort files (S (S k)) :=
    let n := S (S k) in
    let m := (n / 2)%nat in
    if (List.length files <? m)%nat then None
    else
      match do_merge_sort (firstn m files) m,
            do_merge_sort (skipn m files) (n - m)%nat with
      | Some l, Some r => Some (merge l r)
      | _, _ => None
      end.
Proof.
  - assert (H : (S (S k) / 2 < S (S k))%nat) by (apply Nat.div_lt; lia).
    exact H.
  - assert (H : (0 < S (S k) / 2)%nat) by (apply Nat.div_str_pos; lia).
    assert (H' : (S (S k) - S (S k) / 2 < S (S k))%nat) by lia.
    exact H'.
Qed.

(** [sorted_subdirs]: the list returned and the directory as it is left.
    Callers pass a node whose [type] is [TYPE_DIR]; such a node of [File]
    shape would be read past its allocation. *)
Definition sorted_subdirs (d : file) : M (list file * file) :=
  match d with
  | File _ _ _ => fail OutOfBoundsRead
  | Directory n sz ty subdirs self sorted =>
      match sorted with
      | None => fail UninitialisedRead
      | Some true => ret (subdirs, d)
      | Some false =>
          let count := List.length subdirs in
          match do_merge_sort subdirs count with
          | None => fail AssertionFailure
          | Some l => ret (l, Directory n sz ty l self (Some true))
          end
      end
  end.

(* ===================================================================== *)
(** * Tree builder *)
(* ===================================================================== *)

Record stat : Type := mkStat { st_mode : Z; st_size : Z }.

(** What the disk answers for one path while the tree is built:
    [lstat] gives [inl errno] or [inr st]; for a directory, [opendir] gives
    [None] (NULL) or the entries [readdir] returns, each with the answers for
    the path of that entry.  [.] and [..] may be listed. *)
Inductive fs_entry : Type :=
| FsEntry (lstat : Z + stat) (opendir : option (list (string * fs_entry))).

Definition is_dot_or_dotdot (d_name : string) : bool :=
  (String.eqb d_name "." || String.eqb d_name "..")%bool.

(** The [readdir] loop of [build_tree] for the directory [path]; [build]
    is the recursive call, [subdirs] and [sz] are [directory->subdirs] and
    [file->size] so far. *)
Definition readdir_loop (build : fs_entry -> string -> M (option file))
           (path : string)
  : list (string * fs_entry) -> list file -> Z -> M (list file * Z) :=
  fix loop (ents : list (string * fs_entry)) (subdirs : list file) (sz : Z)
      {struct ents} : M (list file * Z) :=
    match ents with
    | [] => ret (subdirs, sz)
    | (d_name, child) :: rest =>
        if is_dot_or_dotdot d_name then loop rest subdirs sz
        else
          match concat_path path d_name with
          | None => fail OutOfBoundsRead
          | Some subpath =>
              new_file <- build child subpath ;;
              match new_file with
              | Some nf =>
                  sz' <- off_add sz (size nf) ;;
                  loop rest (nf :: subdirs) sz'
              | None =>
                  eprint ("[WARNING]: cannot find file " ++ subpath) ;;;
                  loop rest subdirs sz
              end
          end
    end.

Fixpoint build_tree (e : fs_entry) (path : string) {struct e}
  : M (option file) :=
  match e with
  | FsEntry (inl errno) _ =>
      err errno ("[WARNING] stat failed: " ++ path) ;;;
      ret None
  | FsEntry (inr st) dir =>
      let type := Z.shiftr (Z.land (st_mode st) S_IFMT) FILE_TYPE_OFFSET in
      if S_ISDIR (st_mode st) then
        match dir with
        | Some entries =>
            '(subdirs, sz) <-
              readdir_loop build_tree path entries [] (st_size st) ;;
            ret (Some (Directory path sz type subdirs (st_size st)
                                 (Some false)))
        | None =>
            ret (Some (Directory path (st_size st)
                                 (Z.lor type DIRECTORY_UNLISTABLE) []
                                 (st_size st) None))
        end
      else ret (Some (File path (st_size st) type))
  end.

(* ===================================================================== *)
(** * Deletion engine *)
(* ===================================================================== *)

(** The loop of [update_size]: [acc] is [d->file.size] so far. *)
Fixpoint add_sizes (acc : Z) (l : list file) : M Z :=
  match l with
  | [] => ret acc
  | f :: l' => acc' <- off_add acc (size f) ;; add_sizes acc' l'
  end.

Definition update_size (d : file) : M file :=
  match d with
  | File _ _ _ => fail OutOfBoundsRead
  | Directory n _ ty subdirs self _ =>
      sz <- add_sizes self subdirs ;;
      ret (Directory n sz ty subdirs self (Some false))
  end.

(** [update_size] on an ancestor, whose child on the path is [child]. *)
Definition update_size_frame (fr : frame) (child : file) : M frame :=
  sz <- add_sizes (fr_self_size fr) (fr_before fr ++ child :: fr_after fr) ;;
  ret (mkFrame (fr_name fr) sz (fr_type fr) (fr_before fr) (fr_after fr)
               (fr_self_size fr) (Some false)).

(** The [else] branch of [remove_file_internal]: [unlink], then [rmdir]. *)
Definition remove_plain (f : file) : M (bool * file) :=
  r <- sys (Unlink (name f)) ;;
  match r with
  | None => ret (true, f)
  | Some _ =>
      r' <- sys (Rmdir (name f)) ;;
      match r' with
      | None => ret (true, f)
      | Some errno =>
          err errno ("[ERROR] cannot remove " ++ name f ++ "; skipping") ;;;
          ret (false, f)
      end
  end.

Definition is_dir_bit (ty : Z) : bool :=
  negb (Z.land ty TYPE_DIR =? 0).

(** The loop of [remove_file_internal] over the children of a directory;
    [remove] is the recursive call.  Returns [result] and the children that
    stay linked. *)
Definition children_loop (remove : file -> M (bool * file))
  : list file -> bool -> M (bool * list file) :=
  fix loop (l : list file) (result : bool) {struct l}
      : M (bool * list file) :=
    match l with
    | [] => ret (result, [])
    | c :: nxt =>
        '(ok, c') <- remove c ;;
        if ok then loop nxt result           (* the child is freed and unlinked *)
        else
          '(r, rest) <- loop nxt false ;;
          ret (r, c' :: rest)
    end.

(** [remove_file_internal(f, false)], which is every recursive call: the
    body up to [struct directory *parent = f->parent]; with
    [remove_parent] false the rest of the function does nothing.  Returns
    [result] and the node as the call leaves it (the caller frees it when
    [result] is true). *)
Fixpoint remove_file_internal (f : file) {struct f} : M (bool * file) :=
  match f with
  | File _ _ ty =>
      if is_dir_bit ty then fail OutOfBoundsRead   (* d->subdirs of a struct file *)
      else remove_plain f
  | Directory n sz ty subdirs self sorted =>
      if is_dir_bit ty then
        '(result, subdirs') <- children_loop remove_file_internal subdirs true ;;
        result' <-
          (if negb result then
             eprint ("[WARNING] skipping " ++ n
                       ++ "; not all children removed") ;;;
             ret false
           else
             r <- sys (Rmdir n) ;;
             match r with
             | None => ret true
             | Some errno =>
                 err errno ("[ERROR] cannot remove " ++ n ++ "; skipping") ;;;
                 ret false
             end) ;;
        d <- update_size (Directory n sz ty subdirs' self sorted) ;;
        ret (result', d)
      else remove_plain f
  end.

(** The loop [while (d) { update_size(d); d = d->file.parent; }] above the
    directory [child], which has been updated already. *)
Fixpoint update_sizes_up (child : file) (up : list frame) : M (list frame) :=
  match up with
  | [] => ret []
  | fr :: up' =>
      fr' <- update_size_frame fr child ;;
      rest <- update_sizes_up (plug fr' child) up' ;;
      ret (fr' :: rest)
  end.

(** [remove_file(f)], that is [remove_file_internal(f, true)]: the body
    above, then, when [result] is true, the unlinking of [f] from its parent
    (the node occurs once in that list, at the place the cursor records)
    and [free(f)], then the walk up the ancestors.  Returns [result] and the
    node [f->parent] as the call leaves it, [None] when [f->parent] is NULL.
    A node below the root that is freed has been unlinked and no pointer to
    it is kept; the root stays reachable from [tree]. *)
Definition remove_file (c : cursor) : M (bool * option cursor) :=
  let (f, ctx) := c in
  '(result, f') <- remove_file_internal f ;;
  match ctx with
  | [] =>
      (if result then free_root else ret tt) ;;;
      ret (result, None)
  | fr :: up =>
      let d := if result then plug_removed fr else plug fr f' in
      d' <- update_size d ;;
      up' <- update_sizes_up d' up ;;
      ret (result, Some (d', up'))
  end.

(* ===================================================================== *)
(** * Navigation controller *)
(* ===================================================================== *)

(** [&f->parent->file]: [file] is the first member of [struct directory],
    so this is the [parent] pointer itself, NULL at the root. *)
Definition parent_of (c : cursor) : option cursor :=
  match c with
  | (_, []) => None
  | (f, fr :: up) => Some (plug fr f, up)
  end.

(** The scan of [next_entity]: the first child whose last path segment is
    [s], with the children before and after it. *)
Fixpoint find_child (s : string) (before l : list file)
  : option (list file * file * list file) :=
  match l with
  | [] => None
  | c :: rest =>
      if String.eqb (get_file_name (name c)) s then Some (before, c, rest)
      else find_child s (before ++ [c]) rest
  end.

Definition next_entity (c : cursor) (s : string) : M (option cursor) :=
  if String.eqb ".." s then ret (parent_of c)
  else
    let (f, ctx) := c in
    if type f =? TYPE_DIR then
      match f with
      | File _ _ _ => fail OutOfBoundsRead
      | Directory n sz ty subdirs self sorted =>
          match find_child s [] subdirs with
          | Some (before, ch, after) =>
              ret (Some (ch, mkFrame n sz ty before after self sorted :: ctx))
          | None => ret None
          end
      end
    else ret None.

(** [print_node], for its effect on the tree: the children of a listed
    directory are sorted.  Text written to stdout is not modelled. *)
Definition print_node (c : cursor) : M cursor :=
  let (f, ctx) := c in
  if type f =? TYPE_DIR then
    '(_, d) <- sorted_subdirs f ;;
    ret (d, ctx)
  else ret c.

Definition MSG_ROOT_REMOVED : string :=
  "[INFO] removed root directory; exiting".

(** The node [process_rm] sets [to_remove] to: [cur] for a blank argument,
    what [next_entity] resolves the argument to otherwise. *)
Definition to_remove (cur : cursor) (line : option string)
  : M (option cursor) :=
  match line with
  | Some l => if is_empty_line line then ret (Some cur)
              else next_entity cur l
  | None => ret (Some cur)
  end.

(** [process_rm].  [parent] is computed before [remove_file] runs; the value
    returned here is that node as [remove_file] leaves it. *)
Definition process_rm (cur : cursor) (line : option string)
  : M (option cursor) :=
  target <- to_remove cur line ;;
  match target with
  | None => fail NullDereference        (* to_remove->parent *)
  | Some t =>
      '(_, parent) <- remove_file t ;;
      match parent with
      | None => eprint MSG_ROOT_REMOVED ;;; ret parent
      | Some _ => ret parent
      end
  end.

Definition process_help (line : option string) : M unit :=
  if is_empty_line line then ret tt
  else
    match line with
    | Some l => eprint ("[ERROR] wrong command: /help " ++ l)
    | None => ret tt
    end.

Definition process_command (cur : cursor) (line : string)
  : M (option cursor) :=
  let (cmd, rest) := strsep line in
  if String.eqb cmd "/rm" then process_rm cur rest
  else if String.eqb cmd "/help" then
    process_help rest ;;; ret (Some cur)
  else
    eprint ("command not recognized: " ++ cmd) ;;; ret (Some cur).

Definition begins_with_slash (line : string) : bool :=
  match line with
  | String c _ => Ascii.eqb c slash
  | EmptyString => false
  end.

(** One round of the loop of [main] after [readline] returned [line]:
    the new value of [cur], or [None] for [goto exit_tree]. *)
Definition dispatch (cur : cursor) (line : string) : M (option cursor) :=
  if begins_with_slash line then process_command cur line
  else
    let name := extract_name line in
    nxt <- next_entity cur name ;;
    match nxt with
    | None => eprint ("[ERROR] no such file: " ++ name) ;;; ret (Some cur)
    | Some n => ret (Some n)
    end.

(** The loop of [main]; [input] holds the lines [readline] returns before
    end of input.  Returns [exit_code] as it is at [exit_tree]. *)
Fixpoint main_loop (cur : cursor) (input : list string) : M Z :=
  cur' <- print_node cur ;;
  match input with
  | [] => ret 0
  | line :: rest =>
      r <- dispatch cur' line ;;
      match r with
      | None => ret 0
      | Some c => main_loop c rest
      end
  end.

(** [deallocate_files(tree)] at [exit_tree]: it reads and frees every node
    reachable from [tree]; if the root block has been freed, that is a read
    of freed memory followed by a second [free]. *)
Definition deallocate_files : M unit :=
  fun s => if st_tree_freed s then Fault UseAfterFree else Ret tt s.

(** [main].  [argc] is the argument count, [open_dot] the errno of
    [open(".")] if it fails, [base_path] what [getcwd] or [realpath] gave,
    [disk] the answers of the disk below that path. *)
Definition main (argc : Z) (open_dot : option Z) (base_path : string)
           (disk : fs_entry) (input : list string) : M Z :=
  if ((argc =? 1) || (argc =? 2))%bool then
    match open_dot with
    | Some errno =>
        err errno "can't open current directory" ;;;
        ret 1
    | None =>
        tree <- build_tree disk base_path ;;
        match tree with
        | None =>
            eprint "[ERROR] failed to build a tree, check path" ;;;
            ret 1
        | Some t =>
            exit_code <- main_loop (t, []) input ;;
            deallocate_files ;;;
            ret exit_code
        end
    end
  else
    eprint "[ERROR] incorrect arguments" ;;;
    ret 1.

(** The exit status the parent process observes; [None] when the process
    is killed instead. *)
Definition exit_status (o : outcome Z) : option Z :=
  match o with
  | Ret code _ => Some (Z.land code 255)
  | Exit status _ => Some status
  | Fault _ => None
  end.

(* ===================================================================== *)
(** * Predicates used in the statements *)
(* ===================================================================== *)

(** The list [merge a b] yields, written front to back; [merge] itself
    builds it back to front and reverses (see [merge_merged]). *)
Fixpoint merged (a : list file) : list file -> list file :=
  fix from_b (b : list file) {struct b} : list file :=
    match a, b with
    | [], _ => b
    | _, [] => a
    | x :: a', y :: b' =>
        if size x >? size y then x :: merged a' b else y :: from_b b'
    end.

(** Every adjacent pair is in descending order of size. *)
Definition adjacent_desc (l : list file) : Prop :=
  forall i x y,
    nth_error l i = Some x -> nth_error l (S i) = Some y -> size x >= size y.

Definition desc (x y : file) : Prop := size x >= size y.

(** The children of size [k], in list order. *)
Definition of_size (k : Z) (l : list file) : list file :=
  filter (fun f => size f =? k) l.

(** Children of equal size keep their relative order from [l] to [l']. *)
Definition same_tie_order (l l' : list file) : Prop :=
  forall k, of_size k l' = of_size k l.

(** Children of equal size come in [l'] in the reverse of their order in
    [l]. *)
Definition reversed_tie_order (l l' : list file) : Prop :=
  forall k, of_size k l' = rev (of_size k l).

Definition sorted_flag (f : file) : option bool :=
  match f with
  | File _ _ _ => None
  | Directory _ _ _ _ _ b => b
  end.

(** [sort_dirty == false] implies the children are sorted. *)
Definition cache_valid (d : file) : Prop :=
  sorted_flag d = Some true -> adjacent_desc (children d).

Definition sum_sizes (l : list file) : Z :=
  fold_right (fun f acc => size f + acc) 0 l.

(** The size invariant on every directory of a tree. *)
Fixpoint size_ok (f : file) : bool :=
  match f with
  | File _ _ _ => true
  | Directory _ sz _ subdirs self _ =>
      (sz =? self + sum_sizes subdirs) && forallb size_ok subdirs
  end.

(** The size invariant on the ancestors of a node of size [child_size]. *)
Fixpoint frames_ok (child_size : Z) (ctx : list frame) : bool :=
  match ctx with
  | [] => true
  | fr :: up =>
      (fr_size fr =? fr_self_size fr + (sum_sizes (fr_before fr)
                       + (child_size + sum_sizes (fr_after fr))))
      && forallb size_ok (fr_before fr)
      && forallb size_ok (fr_after fr)
      && frames_ok (fr_size fr) up
  end.

(** An ancestor after a node of size [k] was removed below it. *)
Definition shrink (k : Z) (fr : frame) : frame :=
  mkFrame (fr_name fr) (fr_size fr - k) (fr_type fr) (fr_before fr)
          (fr_after fr) (fr_self_size fr) (Some false).

(** The node [f->parent] after a node of size [k] was unlinked from it and
    every ancestor lost [k]. *)
Definition after_unlink (k : Z) (ctx : list frame) : option cursor :=
  match ctx with
  | [] => None
  | fr :: up => Some (plug_removed (shrink k fr), map (shrink k) up)
  end.

(** The siblings along the path of a cursor satisfy the size invariant. *)
Definition siblings_ok (ctx : list frame) : Prop :=
  Forall (fun fr => forallb size_ok (fr_before fr) = true
                    /\ forallb size_ok (fr_after fr) = true) ctx.

(** What [build_tree] may return: NULL, or a tree with the size invariant. *)
Definition built_ok (o : option file) : Prop :=
  match o with
  | Some t => size_ok t = true
  | None => True
  end.

(** A list of sizes in descending order. *)
Fixpoint descending (l : list Z) : bool :=
  match l with
  | [] => true
  | x :: l' =>
      match l' with
      | [] => true
      | y :: _ => (y <=? x) && descending l'
      end
  end.

(** A [subdirs_sorted] flag that is set tells the truth about the list. *)
Definition flag_ok (b : option bool) (sizes : list Z) : bool :=
  match b with
  | Some true => descending sizes
  | _ => true
  end.

(** Every directory of the tree whose flag is set has sorted children. *)
Fixpoint cache_ok (f : file) : bool :=
  match f with
  | File _ _ _ => true
  | Directory _ _ _ subdirs _ b =>
      flag_ok b (map size subdirs) && forallb cache_ok subdirs
  end.

(** The same on the ancestors of a node of size [child_size]. *)
Fixpoint frames_cache_ok (child_size : Z) (ctx : list frame) : bool :=
  match ctx with
  | [] => true
  | fr :: up =>
      flag_ok (fr_sorted fr)
              (map size (fr_before fr) ++ child_size :: map size (fr_after fr))
      && forallb cache_ok (fr_before fr)
      && forallb cache_ok (fr_after fr)
      && frames_cache_ok (fr_size fr) up
  end.

(** [displays cur input s d]: in the run of the loop of [main] from the
    node [cur] in state [s] on the lines [input], [d] is one of the nodes as
    [print_node] leaves them, round after round. *)
Inductive displays : cursor -> list string -> state -> cursor -> Prop :=
| displays_now cur input s d s' :
    print_node cur s = Ret d s' ->
    displays cur input s d
| displays_later cur line rest s cur' s0 c s1 d :
    print_node cur s = Ret cur' s0 ->
    dispatch cur' line s0 = Ret (Some c) s1 ->
    displays c rest s1 d ->
    displays cur (line :: rest) s d.

(* ===================================================================== *)
(** * Further predicates, for the properties beyond the specification *)
(* ===================================================================== *)

(** The string contains a [/]. *)
Fixpoint has_slash (s : string) : bool :=
  match s with
  | EmptyString => false
  | String c s' => Ascii.eqb c slash || has_slash s'
  end.

(** The string contains one of the delimiters of [strsep]. *)
Fixpoint has_delim (s : string) : bool :=
  match s with
  | EmptyString => false
  | String c s' => is_delim c || has_delim s'
  end.

(** The path a system call is made on. *)
Definition call_path (c : syscall) : string :=
  match c with
  | Unlink p => p
  | Rmdir p => p
  end.

(** The names of all nodes of a tree. *)
Fixpoint paths_of (f : file) : list string :=
  match f with
  | File n _ _ => [n]
  | Directory n _ _ subdirs _ _ => n :: flat_map paths_of subdirs
  end.

(** The state an outcome leaves, when the process got that far. *)
Definition final_state {A} (o : outcome A) : option state :=
  match o with
  | Ret _ s => Some s
  | Exit _ s => Some s
  | Fault _ => None
  end.

(** The entries of a listing that [build_tree] descends into. *)
Definition listed (ents : list (string * fs_entry))
  : list (string * fs_entry) :=
  filter (fun p => negb (is_dot_or_dotdot (fst p))) ents.

(** A node whose [type] says listed directory was allocated as a
    [struct directory] and has its sorted flag written; every node of the
    tree is so. *)
Fixpoint shape_ok (f : file) : bool :=
  match f with
  | File _ _ ty => negb (ty =? TYPE_DIR)
  | Directory _ _ ty subdirs _ b =>
      implb (ty =? TYPE_DIR)
            (match b with Some _ => true | None => false end)
      && forallb shape_ok subdirs
  end.

(** The same on the siblings kept in the ancestors of a cursor. *)
Fixpoint frames_shape_ok (ctx : list frame) : bool :=
  match ctx with
  | [] => true
  | fr :: up =>
      implb (fr_type fr =? TYPE_DIR)
            (match fr_sorted fr with Some _ => true | None => false end)
      && forallb shape_ok (fr_before fr)
      && forallb shape_ok (fr_after fr)
      && frames_shape_ok up
  end.

(** The name of a child, as an answer of [concat_path]. *)
Definition some_name (c : file) : option string := Some (name c).

(** [touches_only P s o]: the run from state [s] that ended in [o], by
    returning or by [exit], made system calls only on paths that satisfy
    [P], after those already in the trace of [s]. *)
Definition touches_only {A} (P : string -> Prop) (s : state) (o : outcome A)
  : Prop :=
  match final_state o with
  | Some s' =>
      exists calls,
        st_trace s' = (st_trace s ++ calls)%list
        /\ Forall (fun c => P (call_path c)) calls
  | None => True
  end.

(** The names kept in the ancestors of a cursor: the ancestors themselves
    and everything below their other children. *)
Fixpoint ctx_paths (ctx : list frame) : list string :=
  match ctx with
  | [] => []
  | fr :: up =>
      (fr_name fr :: flat_map paths_of (fr_before fr)
              ++ flat_map paths_of (fr_after fr) ++ ctx_paths up)%list
  end.

(** The names of all nodes of the tree a cursor points into. *)
Definition tree_paths (c : cursor) : list string :=
  paths_of (root_of (fst c) (snd c)).

(** Every name in the tree begins with [base]. *)
Definition under (base : string) (t : file) : Prop :=
  Forall (fun n => String.prefix base n = true) (paths_of t).

(** Every [struct directory] of the tree has the directory bit in [type],
    as [build_tree] leaves it, so that [remove_file_internal] descends
    into it. *)
Fixpoint dir_bits_ok (f : file) : bool :=
  match f with
  | File _ _ _ => true
  | Directory _ _ ty subdirs _ _ =>
      is_dir_bit ty && forallb dir_bits_ok subdirs
  end.

(** [covers names s s']: between [s] and [s'] a system call was made on
    each of [names]. *)
Definition covers (names : list string) (s s' : state) : Prop :=
  exists calls,
    st_trace s' = (st_trace s ++ calls)%list
    /\ incl names (map call_path calls).

(* ===================================================================== *)
(** * Concrete inputs *)
(* ===================================================================== *)

Module Examples.

Definition EACCES : Z := 13.

(** Modes: a regular file (0100644) and a directory (040755). *)
Definition reg (sz : Z) : fs_entry := FsEntry (inr (mkStat 33188 sz)) None.
Definition dir (sz : Z) (l : list (string * fs_entry)) : fs_entry :=
  FsEntry (inr (mkStat 16877 sz)) (Some l).
Definition unreadable : fs_entry := FsEntry (inl EACCES) None.

(** The fixture of the specification: [a] (100), [b] (200) and [c/d]
    (300) under a root whose own size is 0. *)
Definition fixture : fs_entry :=
  dir 0 [(".", dir 0 []); ("..", dir 0 []);
         ("a", reg 100); ("b", reg 200); ("c", dir 0 [("d", reg 300)])].

(** A kernel that lets every call succeed, and one that refuses every
    call with EACCES. *)
Definition permissive : kernel := fun _ _ => None.
Definition refusing : kernel := fun _ _ => Some EACCES.

(** A kernel that refuses to remove one path and lets the rest go. *)
Definition stubborn (path : string) : kernel :=
  fun _ c =>
    match c with
    | Unlink p | Rmdir p => if String.eqb p path then Some EACCES else None
    end.

Definition boot (k : kernel) : state := mkState k [] [] false.

(** A directory with an entry that cannot be examined, then a file. *)
Definition half_readable : fs_entry :=
  dir 0 [("a", unreadable); ("b", reg 200)].

Definition file_d : file := File "/r/c/d" 300 8.
Definition file_a : file := File "/r/a" 100 8.
Definition file_b : file := File "/r/b" 200 8.
Definition dir_c : file := Directory "/r/c" 300 4 [file_d] 0 (Some false).
Definition root_dir : file :=
  Directory "/r" 600 4 [dir_c; file_b; file_a] 0 (Some false).

(** The cursor on [/r/c/d] in that tree. *)
Definition frame_c : frame := mkFrame "/r/c" 300 4 [] [] 0 (Some false).
Definition frame_r : frame :=
  mkFrame "/r" 600 4 [] [file_b; file_a] 0 (Some false).
Definition at_d : cursor := (file_d, [frame_c; frame_r]).

(** Two children of the same size. *)
Definition twin_x : file := File "/t/x" 5 8.
Definition twin_y : file := File "/t/y" 5 8.
Definition twins : file :=
  Directory "/t" 10 4 [twin_x; twin_y] 0 (Some false).

End Examples.

Module MoreExamples.

(** A tree with a file deep below the root and the cursor on [/r/c]. *)
Definition at_c : cursor := (Examples.dir_c, [Examples.frame_r]).

(** A socket (mode 0140755). *)
Definition socket_stat : stat := mkStat 49645 0.

End MoreExamples.

(* ===================================================================== *)
(** * Reasoning about the monad *)
(* ===================================================================== *)

Local Close Scope string_scope.

Lemma bind_Ret {A B} (m : M A) (k : A -> M B) s b s'' :
  bind m k s = Ret b s'' ->
  exists a s', m s = Ret a s' /\ k a s' = Ret b s''.
Proof.
  unfold bind. destruct (m s) as [a s'| |]; try discriminate.
  intros H. exists a, s'. split; [reflexivity | exact H].
Qed.

Lemma bind_eq_Ret {A B} (m : M A) (k : A -> M B) s a s' :
  m s = Ret a s' -> bind m k s = k a s'.
Proof. unfold bind. intros ->. reflexivity. Qed.

Lemma ret_Ret {A} (a b : A) s s' : ret a s = Ret b s' -> a = b /\ s = s'.
Proof. unfold ret. intros H. inversion H. auto. Qed.

Lemma err_not_Ret eval msg s (u : unit) s' : err eval msg s <> Ret u s'.
Proof. unfold err, bind, eprint, exit. discriminate. Qed.

Lemma off_add_Ret a b s z s' :
  off_add a b s = Ret z s' -> z = a + b /\ s' = s.
Proof.
  unfold off_add. destruct (in_off_t (a + b)); [|discriminate].
  intros H. apply ret_Ret in H. destruct H. auto.
Qed.

(** Splits a hypothesis [bind m k s = Ret b s'] into its two runs. *)
Ltac inv_bind H :=
  let a := fresh "a" in
  let s := fresh "s" in
  let H1 := fresh "Hrun" in
  apply bind_Ret in H; destruct H as (a & s & H1 & H).

Ltac inv_ret H :=
  apply ret_Ret in H; destruct H; subst.

(* ===================================================================== *)
(** * The sorter *)
(* ===================================================================== *)

Lemma reverse_loop_rev x p : reverse_loop x p = rev x ++ p.
Proof.
  revert p. induction x as [|c x IH]; intros p; simpl; [reflexivity|].
  rewrite IH, <- app_assoc. reflexivity.
Qed.

Lemma reverse_rev l : reverse l = rev l.
Proof. destruct l; simpl; [reflexivity | apply reverse_loop_rev]. Qed.

Lemma merged_nil_r a : merged a [] = a.
Proof. destruct a; reflexivity. Qed.

Lemma merge_loop_merged a : forall b acc,
  merge_loop a b acc = rev (merged a b) ++ acc.
Proof.
  induction a as [|x a IHa].
  - induction b as [|y b IHb]; intros acc; simpl; [reflexivity|].
    change (merge_loop [] b (y :: acc) = (rev b ++ [y]) ++ acc).
    rewrite IHb. destruct b; simpl; rewrite <- ?app_assoc; reflexivity.
  - induction b as [|y b IHb]; intros acc.
    + simpl. rewrite IHa, merged_nil_r, <- app_assoc. reflexivity.
    + simpl. destruct (size x >? size y).
      * rewrite IHa. simpl. rewrite <- app_assoc. reflexivity.
      * change (merge_loop (x :: a) b (y :: acc)
                = (rev (merged (x :: a) b) ++ [y]) ++ acc).
        rewrite IHb, <- app_assoc. reflexivity.
Qed.

(** [merge] returns the front-to-back merge. *)
Lemma merge_merged a b : merge a b = merged a b.
Proof.
  unfold merge. rewrite reverse_rev, merge_loop_merged, app_nil_r.
  apply rev_involutive.
Qed.

Lemma merged_perm a : forall b, Permutation (a ++ b) (merged a b).
Proof.
  induction a as [|x a IHa].
  - intros b. destruct b; reflexivity.
  - induction b as [|y b IHb].
    + rewrite app_nil_r. reflexivity.
    + simpl. destruct (size x >? size y).
      * constructor. apply IHa.
      * change (Permutation (x :: a ++ y :: b) (y :: merged (x :: a) b)).
        rewrite <- IHb. simpl.
        rewrite perm_swap. constructor.
        symmetry. apply Permutation_middle.
Qed.

Lemma merged_HdRel a b z :
  HdRel desc z a -> HdRel desc z b -> HdRel desc z (merged a b).
Proof.
  intros Ha Hb. destruct a as [|x a]; [destruct b; exact Hb|].
  destruct b as [|y b]; [exact Ha|].
  simpl. destruct (size x >? size y); constructor.
  - inversion Ha; assumption.
  - inversion Hb; assumption.
Qed.

Lemma merged_sorted a : forall b,
  Sorted desc a -> Sorted desc b -> Sorted desc (merged a b).
Proof.
  induction a as [|x a IHa]; intros b Ha Hb.
  - destruct b; exact Hb.
  - induction b as [|y b IHb]; [exact Ha|].
    simpl. destruct (size x >? size y) eqn:E.
    + inversion Ha; subst. constructor.
      * apply IHa; assumption.
      * apply merged_HdRel; [assumption|].
        constructor. unfold desc. lia.
    + inversion Hb; subst.
      change (Sorted desc (y :: merged (x :: a) b)).
      constructor.
      * apply IHb; assumption.
      * apply merged_HdRel; [|assumption].
        constructor. unfold desc. lia.
Qed.

Lemma desc_trans : Relations_1.Transitive desc.
Proof. intros x y z. unfold desc. lia. Qed.

Lemma of_size_all_below k l :
  Forall (fun z => size z < k) l -> of_size k l = [].
Proof.
  induction 1 as [|z l Hz _ IH]; [reflexivity|].
  unfold of_size. simpl.
  replace (size z =? k) with false by (symmetry; apply Z.eqb_neq; lia).
  exact IH.
Qed.

Lemma of_size_below k y b :
  Sorted desc (y :: b) -> size y < k -> of_size k (y :: b) = [].
Proof.
  intros Hs Hlt. apply Sorted_StronglySorted in Hs; [|exact desc_trans].
  inversion Hs as [|? ? _ Hall]; subst.
  apply of_size_all_below. constructor; [assumption|].
  eapply Forall_impl; [|exact Hall]. unfold desc. intros z Hz. lia.
Qed.

Lemma of_size_cons k x l :
  of_size k (x :: l) = if size x =? k then x :: of_size k l else of_size k l.
Proof. reflexivity. Qed.

Lemma merged_cons_cons x a y b :
  merged (x :: a) (y :: b)
  = if size x >? size y then x :: merged a (y :: b)
    else y :: merged (x :: a) b.
Proof. reflexivity. Qed.

(** In a merge, the elements of one size that come from [b] precede those
    that come from [a]. *)
Lemma merged_of_size k a : forall b,
  Sorted desc b -> of_size k (merged a b) = of_size k b ++ of_size k a.
Proof.
  induction a as [|x a IHa]; intros b Hb.
  - destruct b; simpl; rewrite ?app_nil_r; reflexivity.
  - induction b as [|y b IHb]; [reflexivity|].
    rewrite merged_cons_cons. destruct (size x >? size y) eqn:E.
    + rewrite of_size_cons, (IHa _ Hb), (of_size_cons k x a).
      destruct (size x =? k) eqn:Ek; [|reflexivity].
      apply Z.eqb_eq in Ek.
      rewrite (of_size_below k y b Hb) by lia. reflexivity.
    + inversion Hb; subst.
      rewrite of_size_cons, (of_size_cons k y b), IHb by assumption.
      destruct (size y =? k); reflexivity.
Qed.

Lemma of_size_app k l1 l2 : of_size k (l1 ++ l2) = of_size k l1 ++ of_size k l2.
Proof. apply filter_app. Qed.

(** What [do_merge_sort] returns when [n] is the length of the list. *)
Lemma do_merge_sort_spec n : forall files,
  List.length files = n ->
  exists l, do_merge_sort files n = Some l
            /\ Permutation files l
            /\ Sorted desc l
            /\ reversed_tie_order files l.
Proof.
  induction n as [n IH] using lt_wf_ind. intros files Hlen.
  destruct n as [|[|k]].
  - destruct files; [|discriminate]. exists []. simp do_merge_sort.
    repeat split; constructor.
  - destruct files as [|f [|? ?]]; try discriminate. exists [f].
    simp do_merge_sort. repeat split; try constructor; try constructor.
    intros z. unfold of_size. simpl. destruct (size f =? z); reflexivity.
  - simp do_merge_sort. cbv zeta.
    set (m := (S (S k) / 2)%nat).
    assert (Hm : (0 < m < S (S k))%nat).
    { split; [apply Nat.div_str_pos; lia | apply Nat.div_lt; lia]. }
    replace (List.length files <? m)%nat with false
      by (symmetry; apply Nat.ltb_ge; lia).
    destruct (IH m (proj2 Hm) (firstn m files)) as (l & El & Pl & Sl & Tl).
    { rewrite length_firstn. lia. }
    destruct (IH (S (S k) - m)%nat ltac:(lia) (skipn m files))
      as (r & Er & Pr & Sr & Tr).
    { rewrite length_skipn. lia. }
    rewrite El, Er. exists (merge l r). rewrite merge_merged.
    split; [reflexivity|]. split; [|split].
    + rewrite <- (firstn_skipn m files) at 1.
      rewrite <- merged_perm. apply Permutation_app; assumption.
    + apply merged_sorted; assumption.
    + intros z. rewrite merged_of_size by assumption.
      rewrite Tl, Tr, <- rev_app_distr, <- of_size_app, firstn_skipn.
      reflexivity.
Qed.

Lemma Sorted_adjacent_desc l : Sorted desc l -> adjacent_desc l.
Proof.
  induction 1 as [|x l Hs IH Hd]; intros i a b Ha Hb.
  - destruct i; discriminate.
  - destruct i as [|i]; simpl in *.
    + inversion Ha; subst. destruct l as [|y l]; [discriminate|].
      simpl in Hb. inversion Hb; subst. inversion Hd; assumption.
    + eapply IH; eassumption.
Qed.

Lemma adjacent_desc_Sorted l : adjacent_desc l -> Sorted desc l.
Proof.
  induction l as [|x l IH]; intros H; constructor.
  - apply IH. intros i a b Ha Hb. apply (H (S i) a b); assumption.
  - destruct l as [|y l]; constructor. apply (H 0%nat x y); reflexivity.
Qed.

Lemma sorted_subdirs_dirty n sz ty subdirs self s :
  exists l,
    sorted_subdirs (Directory n sz ty subdirs self (Some false)) s
    = Ret (l, Directory n sz ty l self (Some true)) s
    /\ Permutation subdirs l
    /\ Sorted desc l
    /\ reversed_tie_order subdirs l.
Proof.
  destruct (do_merge_sort_spec (List.length subdirs) subdirs eq_refl)
    as (l & El & Pl & Sl & Tl).
  exists l. simpl. rewrite El. auto.
Qed.

(** C5.  Sort correctness.  For a directory whose [subdirs_sorted] flag has
    been written and is not wrongly set, [sorted_subdirs] returns; in the
    list it returns every adjacent pair is in descending order of size, the
    list is a rearrangement of the children (so their number is
    preserved), and a second call, with nothing done in between, returns
    the same list and leaves the same directory. *)
Theorem sorted_subdirs_sorts n sz ty subdirs self b s :
  cache_valid (Directory n sz ty subdirs self (Some b)) ->
  exists l d' s',
    sorted_subdirs (Directory n sz ty subdirs self (Some b)) s = Ret (l, d') s'
    /\ children d' = l
    /\ adjacent_desc l
    /\ List.length l = List.length subdirs
    /\ Permutation subdirs l
    /\ sorted_subdirs d' s' = Ret (l, d') s'.
Proof.
  intros Hvalid. destruct b.
  - exists subdirs, (Directory n sz ty subdirs self (Some true)), s.
    repeat split; try reflexivity. apply Hvalid. reflexivity.
  - destruct (sorted_subdirs_dirty n sz ty subdirs self s)
      as (l & El & Pl & Sl & _).
    exists l, (Directory n sz ty l self (Some true)), s.
    repeat split; try assumption; try reflexivity.
    + apply Sorted_adjacent_desc. assumption.
    + symmetry. apply Permutation_length. assumption.
Qed.

Lemma sorted_subdirs_sorts_witness :
  cache_valid Examples.root_dir
  /\ exists l d' s',
      sorted_subdirs Examples.root_dir (Examples.boot Examples.permissive)
      = Ret (l, d') s'
      /\ children d' = l
      /\ adjacent_desc l
      /\ List.length l = List.length (children Examples.root_dir)
      /\ Permutation (children Examples.root_dir) l
      /\ sorted_subdirs d' s' = Ret (l, d') s'.
Proof.
  assert (H : cache_valid Examples.root_dir).
  { unfold cache_valid. simpl. discriminate. }
  split; [exact H|].
  exact (sorted_subdirs_sorts _ _ _ _ _ _ _ H).
Defined.

(** C6, as stated, fails: two children of the same size are returned in
    the opposite order. *)
Lemma sorted_subdirs_not_stable :
  ~ (forall d s l d' s',
        sorted_subdirs d s = Ret (l, d') s' ->
        same_tie_order (children d) l).
Proof.
  intros H.
  specialize (H Examples.twins (Examples.boot Examples.permissive)
                [Examples.twin_y; Examples.twin_x]
                (Directory "/t" 10 4 [Examples.twin_y; Examples.twin_x] 0
                           (Some true))
                (Examples.boot Examples.permissive) eq_refl 5).
  vm_compute in H. discriminate H.
Qed.

(** C6, amended.  When the sort runs (the directory is marked unsorted),
    the list returned is a rearrangement of the children in descending
    order of size, and the children of any one size come in the reverse of
    the relative order they held before: the merge takes from the second
    half on a tie. *)
Theorem sorted_subdirs_reverses_ties n sz ty subdirs self s l d' s' :
  sorted_subdirs (Directory n sz ty subdirs self (Some false)) s
  = Ret (l, d') s' ->
  Permutation subdirs l
  /\ adjacent_desc l
  /\ reversed_tie_order subdirs l.
Proof.
  intros H.
  destruct (sorted_subdirs_dirty n sz ty subdirs self s)
    as (l0 & El & Pl & Sl & Tl).
  rewrite El in H. inversion H; subst.
  repeat split; try assumption. apply Sorted_adjacent_desc. assumption.
Qed.

Lemma sorted_subdirs_reverses_ties_witness :
  sorted_subdirs Examples.twins (Examples.boot Examples.permissive)
  = Ret ([Examples.twin_y; Examples.twin_x],
         Directory "/t" 10 4 [Examples.twin_y; Examples.twin_x] 0 (Some true))
        (Examples.boot Examples.permissive)
  /\ Permutation [Examples.twin_x; Examples.twin_y]
                 [Examples.twin_y; Examples.twin_x]
  /\ adjacent_desc [Examples.twin_y; Examples.twin_x]
  /\ reversed_tie_order [Examples.twin_x; Examples.twin_y]
                        [Examples.twin_y; Examples.twin_x].
Proof.
  assert (H : sorted_subdirs Examples.twins
                             (Examples.boot Examples.permissive)
              = Ret ([Examples.twin_y; Examples.twin_x],
                     Directory "/t" 10 4 [Examples.twin_y; Examples.twin_x]
                               0 (Some true))
                    (Examples.boot Examples.permissive))
    by reflexivity.
  split; [exact H|].
  exact (sorted_subdirs_reverses_ties _ _ _ _ _ _ _ _ _ H).
Defined.

(* ===================================================================== *)
(** * The size invariant *)
(* ===================================================================== *)

(** Induction on a tree, with the hypothesis for every child. *)
Lemma file_nested_ind (P : file -> Prop) :
  (forall n sz ty, P (File n sz ty)) ->
  (forall n sz ty subdirs self b,
      Forall P subdirs -> P (Directory n sz ty subdirs self b)) ->
  forall f, P f.
Proof.
  intros HF HD. fix IH 1. intros [n sz ty | n sz ty subdirs self b].
  - apply HF.
  - apply HD. induction subdirs as [|c l IHl]; constructor.
    + apply IH.
    + exact IHl.
Qed.

(** Induction on the answers of the disk, with the hypothesis for every
    listed entry. *)
Lemma fs_entry_nested_ind (P : fs_entry -> Prop) :
  (forall l, P (FsEntry l None)) ->
  (forall l ents,
      Forall (fun p => P (snd p)) ents -> P (FsEntry l (Some ents))) ->
  forall e, P e.
Proof.
  intros HN HS. fix IH 1. intros [l [ents|]].
  - apply HS. induction ents as [|[d c] ents IHl]; constructor.
    + apply IH.
    + exact IHl.
  - apply HN.
Qed.

Lemma sum_sizes_app l1 l2 : sum_sizes (l1 ++ l2) = sum_sizes l1 + sum_sizes l2.
Proof. induction l1 as [|x l1 IH]; simpl; [reflexivity | rewrite IH; lia]. Qed.

Lemma sum_sizes_perm l1 l2 : Permutation l1 l2 -> sum_sizes l1 = sum_sizes l2.
Proof. induction 1; simpl; lia. Qed.

Lemma forallb_perm {A} (p : A -> bool) l1 l2 :
  Permutation l1 l2 -> forallb p l1 = forallb p l2.
Proof.
  induction 1; simpl; try congruence.
  destruct (p x), (p y); reflexivity.
Qed.

Lemma add_sizes_Ret l : forall acc s z s',
  add_sizes acc l s = Ret z s' -> z = acc + sum_sizes l /\ s' = s.
Proof.
  induction l as [|f l IH]; intros acc s z s' H; simpl in H.
  - inv_ret H. simpl. split; [lia | reflexivity].
  - inv_bind H. apply off_add_Ret in Hrun. destruct Hrun; subst.
    apply IH in H. destruct H; subst. simpl. split; [lia | reflexivity].
Qed.

Lemma update_size_Ret d s d' s' :
  update_size d s = Ret d' s' ->
  exists n sz ty l self b,
    d = Directory n sz ty l self b
    /\ d' = Directory n (self + sum_sizes l) ty l self (Some false)
    /\ s' = s.
Proof.
  destruct d as [|n sz ty l self b]; simpl; [discriminate|].
  intros H. inv_bind H. apply add_sizes_Ret in Hrun. destruct Hrun; subst.
  inv_ret H. exists n, sz, ty, l, self, b. auto.
Qed.

Lemma update_size_frame_Ret fr child s fr' s' :
  update_size_frame fr child s = Ret fr' s' ->
  fr' = mkFrame (fr_name fr)
                (fr_self_size fr
                 + (sum_sizes (fr_before fr)
                    + (size child + sum_sizes (fr_after fr))))
                (fr_type fr) (fr_before fr) (fr_after fr) (fr_self_size fr)
                (Some false)
  /\ s' = s.
Proof.
  unfold update_size_frame. intros H. inv_bind H.
  apply add_sizes_Ret in Hrun. destruct Hrun; subst. inv_ret H.
  rewrite sum_sizes_app. simpl. auto.
Qed.

(** The invariant on the whole tree, read off the cursor. *)
Lemma root_of_ok ctx : forall f,
  size_ok (root_of f ctx) = size_ok f && frames_ok (size f) ctx.
Proof.
  induction ctx as [|fr up IH]; intros f; simpl.
  - rewrite andb_true_r. reflexivity.
  - rewrite IH. simpl. rewrite forallb_app, sum_sizes_app. simpl.
    destruct (size_ok f), (forallb size_ok (fr_before fr)),
      (forallb size_ok (fr_after fr)), (frames_ok (fr_size fr) up),
      (fr_size fr =? _); reflexivity.
Qed.

Lemma frames_ok_siblings ctx : forall k,
  frames_ok k ctx = true -> siblings_ok ctx.
Proof.
  induction ctx as [|fr up IH]; intros k H; constructor; simpl in H;
    repeat (apply andb_prop in H; destruct H as [H ?]).
  - auto.
  - eapply IH; eassumption.
Qed.

#[local] Arguments update_size : simpl never.
#[local] Arguments update_size_frame : simpl never.

(* --------------------------------------------------------------------- *)
(** ** After the build *)

Lemma readdir_loop_ok build path ents :
  Forall (fun p => forall path s o s',
              build (snd p) path s = Ret o s' -> built_ok o) ents ->
  forall subdirs sz s subdirs' sz' s',
    forallb size_ok subdirs = true ->
    readdir_loop build path ents subdirs sz s = Ret (subdirs', sz') s' ->
    forallb size_ok subdirs' = true
    /\ sz' - sum_sizes subdirs' = sz - sum_sizes subdirs.
Proof.
  induction 1 as [|[d_name child] rest Hc _ IH];
    intros subdirs sz s subdirs' sz' s' Hok H; simpl in H.
  - inv_ret H. inversion H; subst. auto.
  - destruct (is_dot_or_dotdot d_name); [eapply IH; eassumption|].
    destruct (concat_path path d_name) as [subpath|]; [|discriminate].
    inv_bind H. apply Hc in Hrun. destruct a as [nf|].
    + inv_bind H. apply off_add_Ret in Hrun0. destruct Hrun0; subst.
      apply IH in H.
      * destruct H as [H1 H2]. split; [exact H1|]. rewrite H2. simpl. lia.
      * simpl. simpl in Hrun. rewrite Hrun, Hok. reflexivity.
    + inv_bind H. eapply IH; eassumption.
Qed.

Lemma build_tree_ok e : forall path s o s',
  build_tree e path s = Ret o s' -> built_ok o.
Proof.
  induction e as [l | l ents IH] using fs_entry_nested_ind;
    intros path s o s' H; simpl in H; destruct l as [errno|st].
  - inv_bind H. exfalso. eapply err_not_Ret. eassumption.
  - destruct (S_ISDIR (st_mode st)); inv_ret H; simpl.
    + rewrite andb_true_r. apply Z.eqb_eq. lia.
    + reflexivity.
  - inv_bind H. exfalso. eapply err_not_Ret. eassumption.
  - destruct (S_ISDIR (st_mode st)).
    + inv_bind H. destruct a as [subdirs sz]. inv_ret H.
      eapply readdir_loop_ok in Hrun; [|exact IH|reflexivity].
      destruct Hrun as [H1 H2]. simpl in *. rewrite H1, andb_true_r.
      apply Z.eqb_eq. lia.
    + inv_ret H. reflexivity.
Qed.

(* --------------------------------------------------------------------- *)
(** ** After a deletion *)

Lemma remove_plain_Ret f s r f' s' :
  remove_plain f s = Ret (r, f') s' -> r = true /\ f' = f.
Proof.
  unfold remove_plain. intros H. inv_bind H.
  destruct a as [e|].
  - inv_bind H. destruct a as [e'|].
    + inv_bind H. exfalso. eapply err_not_Ret. eassumption.
    + inv_ret H. inversion H; auto.
  - inv_ret H. inversion H; auto.
Qed.

Lemma children_loop_ok remove l :
  Forall (fun c => forall s r c' s',
              remove c s = Ret (r, c') s' ->
              size_ok c = true -> size_ok c' = true) l ->
  forall result s r l' s',
    forallb size_ok l = true ->
    children_loop remove l result s = Ret (r, l') s' ->
    forallb size_ok l' = true.
Proof.
  induction 1 as [|c nxt Hc _ IH]; intros result s r l' s' Hok H;
    simpl in H.
  - inv_ret H. inversion H; subst. reflexivity.
  - simpl in Hok. apply andb_prop in Hok. destruct Hok as [Hc_ok Hnxt].
    inv_bind H. destruct a as [ok c']. destruct ok.
    + eapply IH; eassumption.
    + inv_bind H. destruct a as [r0 rest]. inv_ret H. inversion H; subst.
      simpl. erewrite Hc by eassumption. eapply IH; eassumption.
Qed.

Lemma remove_file_internal_ok f : forall s r f' s',
  remove_file_internal f s = Ret (r, f') s' ->
  size_ok f = true -> size_ok f' = true.
Proof.
  induction f as [n sz ty | n sz ty subdirs self b IH] using file_nested_ind;
    intros s r f' s' H Hok; simpl in H.
  - destruct (is_dir_bit ty); [discriminate|].
    apply remove_plain_Ret in H. destruct H; subst. exact Hok.
  - destruct (is_dir_bit ty).
    + inv_bind H. destruct a as [result subdirs'].
      simpl in Hok. apply andb_prop in Hok. destruct Hok as [_ Hok].
      eapply children_loop_ok in Hrun; [|exact IH|exact Hok].
      inv_bind H. inv_bind H. apply update_size_Ret in Hrun1.
      destruct Hrun1 as (n' & sz' & ty' & l & self' & b' & E & E' & _).
      inversion E; subst. inv_ret H. inversion H; subst.
      simpl. rewrite Z.eqb_refl. exact Hrun.
    + apply remove_plain_Ret in H. destruct H; subst. exact Hok.
Qed.

Lemma update_sizes_up_ok up : forall child s up' s',
  update_sizes_up child up s = Ret up' s' ->
  siblings_ok up ->
  frames_ok (size child) up' = true.
Proof.
  induction up as [|fr up IH]; intros child s up' s' H Hsib; simpl in H.
  - inv_ret H. reflexivity.
  - inversion Hsib as [|? ? [Hb Ha] Hsib']; subst.
    inv_bind H. apply update_size_frame_Ret in Hrun. destruct Hrun; subst.
    inv_bind H. inv_ret H. apply IH in Hrun; [|exact Hsib'].
    simpl in *. rewrite Z.eqb_refl, Hb, Ha. exact Hrun.
Qed.

Lemma remove_file_ok f ctx s r d up s' :
  size_ok (root_of f ctx) = true ->
  remove_file (f, ctx) s = Ret (r, Some (d, up)) s' ->
  size_ok (root_of d up) = true.
Proof.
  intros Hok H. rewrite root_of_ok in Hok. apply andb_prop in Hok.
  destruct Hok as [Hf Hctx]. unfold remove_file in H.
  inv_bind H. destruct a as [result f'].
  apply remove_file_internal_ok in Hrun; [|exact Hf].
  destruct ctx as [|fr rest]; [inv_bind H; inv_ret H; discriminate|].
  inv_bind H. inv_bind H. inv_ret H. inversion H; subst.
  simpl in Hctx. repeat (apply andb_prop in Hctx; destruct Hctx as [Hctx ?]).
  apply update_sizes_up_ok in Hrun1; [|eapply frames_ok_siblings; eassumption].
  rewrite root_of_ok, Hrun1, andb_true_r.
  apply update_size_Ret in Hrun0.
  destruct Hrun0 as (n' & sz' & ty' & l & self' & b' & E & E' & _). subst d.
  simpl. rewrite Z.eqb_refl. simpl.
  destruct r; inversion E; subst; rewrite forallb_app; simpl.
  - rewrite H2, H1. reflexivity.
  - rewrite H2, H1, Hrun. reflexivity.
Qed.

(* --------------------------------------------------------------------- *)
(** ** Across navigation and display *)

Lemma find_child_split s l : forall before b c a,
  find_child s before l = Some (b, c, a) -> b ++ c :: a = before ++ l.
Proof.
  induction l as [|x l IH]; intros before b c a H; simpl in H;
    [discriminate|].
  destruct (String.eqb (get_file_name (name x)) s).
  - inversion H; subst. reflexivity.
  - apply IH in H. rewrite H, <- app_assoc. reflexivity.
Qed.

(** Resolving a name moves the cursor and leaves the tree as it is. *)
Lemma next_entity_same_tree c name s c' s' :
  next_entity c name s = Ret (Some c') s' ->
  root_of (fst c') (snd c') = root_of (fst c) (snd c) /\ s' = s.
Proof.
  unfold next_entity. destruct c as [f ctx].
  destruct (String.eqb ".." name).
  - intros H. inv_ret H. destruct ctx as [|fr up]; [discriminate|].
    simpl in H. inversion H; subst. auto.
  - destruct (type f =? TYPE_DIR); [|intros H; inv_ret H; discriminate].
    destruct f as [|n sz ty subdirs self b]; [discriminate|].
    destruct (find_child name [] subdirs) as [[[before ch] after]|] eqn:E;
      intros H; inv_ret H; [|discriminate].
    inversion H; subst. apply find_child_split in E. simpl in *.
    unfold plug. simpl. rewrite E. auto.
Qed.

Lemma sorted_subdirs_Ret d s l d' s' :
  sorted_subdirs d s = Ret (l, d') s' ->
  exists n sz ty subdirs self b,
    d = Directory n sz ty subdirs self (Some b)
    /\ d' = Directory n sz ty l self (Some true)
    /\ Permutation subdirs l
    /\ s' = s.
Proof.
  destruct d as [|n sz ty subdirs self [[|]|]]; try discriminate.
  - intros H. inversion H; subst.
    exists n, sz, ty, l, self, true. auto.
  - intros H.
    destruct (sorted_subdirs_dirty n sz ty subdirs self s)
      as (l0 & El & Pl & _).
    rewrite El in H. inversion H; subst.
    exists n, sz, ty, subdirs, self, false. auto.
Qed.

Lemma print_node_ok c s c' s' :
  print_node c s = Ret c' s' ->
  size_ok (root_of (fst c) (snd c)) = true ->
  size_ok (root_of (fst c') (snd c')) = true.
Proof.
  unfold print_node. destruct c as [f ctx].
  destruct (type f =? TYPE_DIR).
  - intros H Hok. inv_bind H. destruct a as [l d]. inv_ret H.
    apply sorted_subdirs_Ret in Hrun.
    destruct Hrun as (n & sz & ty & subdirs & self & b & E & E' & P & _).
    subst. simpl in *. rewrite root_of_ok in *. simpl in *.
    rewrite <- (sum_sizes_perm _ _ P), <- (forallb_perm _ _ _ P).
    exact Hok.
  - intros H Hok. inv_ret H. exact Hok.
Qed.

Lemma process_rm_ok cur line s c' s' :
  process_rm cur line s = Ret (Some c') s' ->
  size_ok (root_of (fst cur) (snd cur)) = true ->
  size_ok (root_of (fst c') (snd c')) = true.
Proof.
  unfold process_rm, to_remove. intros H Hok. inv_bind H.
  destruct a as [[t tctx]|]; [|discriminate].
  assert (Ht : size_ok (root_of t tctx) = true).
  { destruct line as [l|].
    - destruct (is_empty_line (Some l)).
      + apply ret_Ret in Hrun. destruct Hrun as [E _].
        inversion E; subst cur. exact Hok.
      + apply next_entity_same_tree in Hrun. destruct Hrun as [E _].
        simpl in E. rewrite E. exact Hok.
    - apply ret_Ret in Hrun. destruct Hrun as [E _].
      inversion E; subst cur. exact Hok. }
  inv_bind H. destruct a as [r [[d up]|]].
  - apply ret_Ret in H. destruct H as [E _]. inversion E; subst c'. simpl.
    eapply remove_file_ok; eassumption.
  - inv_bind H. apply ret_Ret in H. destruct H as [E _]. discriminate E.
Qed.

Lemma dispatch_ok cur line s c' s' :
  dispatch cur line s = Ret (Some c') s' ->
  size_ok (root_of (fst cur) (snd cur)) = true ->
  size_ok (root_of (fst c') (snd c')) = true.
Proof.
  unfold dispatch. intros H Hok.
  destruct (begins_with_slash line).
  - unfold process_command in H. destruct (strsep line) as [cmd rest].
    destruct (String.eqb cmd "/rm"); [eapply process_rm_ok; eassumption|].
    destruct (String.eqb cmd "/help");
      inv_bind H; apply ret_Ret in H; destruct H as [E _];
      inversion E; subst c'; exact Hok.
  - inv_bind H. destruct a as [n|].
    + apply ret_Ret in H. destruct H as [E _]. inversion E; subst c'.
      apply next_entity_same_tree in Hrun. destruct Hrun as [E' _].
      rewrite E'. exact Hok.
    + inv_bind H. apply ret_Ret in H. destruct H as [E _].
      inversion E; subst c'. exact Hok.
Qed.

Lemma displays_size_ok cur input s d :
  displays cur input s d ->
  size_ok (root_of (fst cur) (snd cur)) = true ->
  size_ok (root_of (fst d) (snd d)) = true.
Proof.
  induction 1 as [cur input s d s' Hp
                 | cur line rest s cur' s0 c s1 d Hp Hd _ IH]; intros Hok.
  - exact (print_node_ok _ _ _ _ Hp Hok).
  - apply IH. eapply dispatch_ok; [exact Hd|].
    exact (print_node_ok _ _ _ _ Hp Hok).
Qed.

(** C1.  The size invariant.  Every directory has [size = self_size + the
    sum of the sizes of its children]: in the tree [build_tree] returns; in
    the tree [remove_file] leaves, when the tree it was called on had it;
    and so in the tree around every node the command loop displays during a
    session on a tree that was built, whatever was deleted on the way. *)
Theorem size_invariant :
  (forall e path s t s',
      build_tree e path s = Ret (Some t) s' -> size_ok t = true)
  /\ (forall f ctx s r d up s',
         size_ok (root_of f ctx) = true ->
         remove_file (f, ctx) s = Ret (r, Some (d, up)) s' ->
         size_ok (root_of d up) = true)
  /\ (forall e path s t s' input d up,
         build_tree e path s = Ret (Some t) s' ->
         displays (t, []) input s' (d, up) ->
         size_ok (root_of d up) = true).
Proof.
  repeat split.
  - intros e path s t s' H. exact (build_tree_ok _ _ _ _ _ H).
  - intros. eapply remove_file_ok; eassumption.
  - intros e path s t s' input d up Hb Hd.
    apply (displays_size_ok _ _ _ _ Hd).
    exact (build_tree_ok _ _ _ _ _ Hb).
Qed.

Lemma size_invariant_witness :
  size_ok Examples.root_dir = true
  /\ size_ok (Directory "/r" 500 4 [Examples.dir_c; Examples.file_b] 0
                        (Some true)) = true.
Proof.
  pose (s0 := Examples.boot Examples.permissive).
  pose (s1 := mkState Examples.permissive [Unlink "/r/a"] [] false).
  pose (shown := Directory "/r" 600 4
                           [Examples.dir_c; Examples.file_b; Examples.file_a]
                           0 (Some true)).
  pose (left := Directory "/r" 500 4 [Examples.dir_c; Examples.file_b] 0
                          (Some false)).
  pose (shown' := Directory "/r" 500 4 [Examples.dir_c; Examples.file_b] 0
                            (Some true)).
  destruct size_invariant as (Hbuild & _ & Hsession).
  assert (Hb : build_tree Examples.fixture "/r" s0
               = Ret (Some Examples.root_dir) s0) by reflexivity.
  split; [exact (Hbuild _ _ _ _ _ Hb)|].
  apply (Hsession _ _ _ _ _ ["/rm a"%string] shown' [] Hb).
  apply (displays_later _ _ _ _ (shown, []) s0 (left, []) s1).
  - reflexivity.
  - reflexivity.
  - apply (displays_now _ _ _ _ s1). reflexivity.
Defined.

(* ===================================================================== *)
(** * The effect of a successful removal on the ancestors *)
(* ===================================================================== *)

Lemma update_sizes_up_shrink k up : forall child c0 s up' s',
  c0 = size child + k ->
  frames_ok c0 up = true ->
  update_sizes_up child up s = Ret up' s' ->
  up' = map (shrink k) up.
Proof.
  induction up as [|fr up IH]; intros child c0 s up' s' Ec Hok H;
    simpl in H.
  - inv_ret H. reflexivity.
  - simpl in Hok. repeat (apply andb_prop in Hok; destruct Hok as [Hok ?]).
    apply Z.eqb_eq in Hok.
    inv_bind H. apply update_size_frame_Ret in Hrun. destruct Hrun; subst.
    inv_bind H. inv_ret H.
    assert (E : fr_self_size fr
                + (sum_sizes (fr_before fr)
                   + (size child + sum_sizes (fr_after fr)))
                = fr_size fr - k) by lia.
    rewrite E in *. simpl. f_equal.
    eapply IH; [|eassumption|exact Hrun].
    simpl. lia.
Qed.

(** Whatever node is removed, its former ancestors lose its size and
    nothing else in the tree changes. *)
Lemma remove_file_shrinks f ctx s p s' :
  frames_ok (size f) ctx = true ->
  remove_file (f, ctx) s = Ret (true, p) s' ->
  p = after_unlink (size f) ctx.
Proof.
  intros Hok H. unfold remove_file in H. inv_bind H.
  destruct a as [result f']. destruct ctx as [|fr up].
  - inv_bind H. inv_ret H. inversion H; subst. reflexivity.
  - inv_bind H. inv_bind H. apply ret_Ret in H. destruct H as [E _].
    inversion E; subst result p. clear E.
    simpl in Hok. repeat (apply andb_prop in Hok; destruct Hok as [Hok ?]).
    apply Z.eqb_eq in Hok.
    apply update_size_Ret in Hrun0.
    destruct Hrun0 as (n' & sz' & ty' & l & self' & b' & E & E' & _).
    inversion E; subst. clear E.
    assert (E : fr_self_size fr + sum_sizes (fr_before fr ++ fr_after fr)
                = fr_size fr - size f) by (rewrite sum_sizes_app; lia).
    rewrite E in *. simpl. unfold plug_removed. simpl. do 3 f_equal.
    eapply update_sizes_up_shrink; [|eassumption|exact Hrun1].
    simpl. lia.
Qed.

(** C8.  Removing a leaf file.  In a tree that satisfies the size
    invariant, when [remove_file] succeeds on a plain file of size [sz], the
    node it leaves at [f->parent] is the parent without the file, with
    [size] lower by [sz], under the same chain of ancestors, each with
    [size] lower by [sz]; the other children of every ancestor, with all
    that is below them, are the values they were. *)
Theorem remove_leaf_sizes n sz ty ctx s p s' :
  size_ok (root_of (File n sz ty) ctx) = true ->
  remove_file (File n sz ty, ctx) s = Ret (true, p) s' ->
  p = after_unlink sz ctx.
Proof.
  intros Hok H. rewrite root_of_ok in Hok. apply andb_prop in Hok.
  destruct Hok as [_ Hctx].
  exact (remove_file_shrinks _ _ _ _ _ Hctx H).
Qed.

Lemma remove_leaf_sizes_witness :
  size_ok (root_of Examples.file_d [Examples.frame_c; Examples.frame_r])
  = true
  /\ remove_file Examples.at_d (Examples.boot Examples.permissive)
     = Ret (true,
            Some (Directory "/r/c" 0 4 [] 0 (Some false),
                  [mkFrame "/r" 300 4 [] [Examples.file_b; Examples.file_a]
                           0 (Some false)]))
           (mkState Examples.permissive [Unlink "/r/c/d"] [] false)
  /\ Some (Directory "/r/c" 0 4 [] 0 (Some false),
           [mkFrame "/r" 300 4 [] [Examples.file_b; Examples.file_a]
                    0 (Some false)])
     = after_unlink 300 [Examples.frame_c; Examples.frame_r].
Proof.
  assert (H1 : size_ok (root_of Examples.file_d
                                [Examples.frame_c; Examples.frame_r])
               = true) by reflexivity.
  assert (H2 : remove_file Examples.at_d (Examples.boot Examples.permissive)
               = Ret (true,
                      Some (Directory "/r/c" 0 4 [] 0 (Some false),
                            [mkFrame "/r" 300 4 []
                                     [Examples.file_b; Examples.file_a]
                                     0 (Some false)]))
                     (mkState Examples.permissive [Unlink "/r/c/d"] [] false))
    by reflexivity.
  split; [exact H1|]. split; [exact H2|].
  exact (remove_leaf_sizes _ _ _ _ _ _ _ H1 H2).
Defined.

(* ===================================================================== *)
(** * The command loop *)
(* ===================================================================== *)

Lemma cut_trailing_space_head c s :
  cut_trailing_space (String c s) = EmptyString
  \/ exists r, cut_trailing_space (String c s) = String c r.
Proof.
  simpl. destruct (cut_trailing_space s).
  - destruct (isspace c); [left | right; eexists]; reflexivity.
  - right. eexists. reflexivity.
Qed.

(** A line that names [..] does not begin with the command marker. *)
Lemma dotdot_is_no_command line :
  extract_name line = ".."%string -> begins_with_slash line = false.
Proof.
  destruct line as [|c s]; [reflexivity|]. simpl.
  destruct (Ascii.eqb c slash) eqn:Ec; [|reflexivity].
  apply Ascii.eqb_eq in Ec. subst c. intros H. exfalso.
  unfold extract_name in H.
  change (skip_space (String slash s)) with (String slash s) in H.
  cbv iota in H.
  destruct (cut_trailing_space_head slash s) as [E | [r E]];
    rewrite E in H; discriminate H.
Qed.

(** Navigation to [..] at the root.  When the cursor is the root and the
    line read is [..], possibly surrounded by whitespace, the round
    returns: it writes "[ERROR] no such file: .." to stderr and leaves
    [cur] on the root, the tree untouched. *)
Lemma dotdot_at_root f line s :
  extract_name line = ".."%string ->
  dispatch (f, []) line s
  = Ret (Some (f, []))
        (logged "[ERROR] no such file: .." s).
Proof.
  intros H. unfold dispatch.
  rewrite (dotdot_is_no_command _ H), H. reflexivity.
Qed.

Lemma dotdot_at_root_witness :
  extract_name "  .. "%string = ".."%string
  /\ dispatch (Examples.root_dir, []) "  .. "%string
              (Examples.boot Examples.permissive)
     = Ret (Some (Examples.root_dir, []))
           (mkState Examples.permissive []
                    ["[ERROR] no such file: .."%string] false).
Proof.
  assert (H : extract_name "  .. "%string = ".."%string) by reflexivity.
  split; [exact H|].
  exact (dotdot_at_root Examples.root_dir _
                        (Examples.boot Examples.permissive) H).
Defined.

(* --------------------------------------------------------------------- *)
(** ** What [err] does to the failure paths *)

(** [build_tree] never returns NULL: the only [return NULL] follows a call
    of [err], which has left the process. *)
Lemma build_tree_returns_node e path s o s' :
  build_tree e path s = Ret o s' -> o <> None.
Proof.
  destruct e as [[errno|st] dir]; simpl; intros H.
  - inv_bind H. exfalso. eapply err_not_Ret. eassumption.
  - destruct (S_ISDIR (st_mode st)); [destruct dir|].
    + inv_bind H. destruct a. inv_ret H. discriminate.
    + inv_ret H. discriminate.
    + inv_ret H. discriminate.
Qed.

(** A failed [lstat] ends the process with the low byte of [errno],
    wherever in the traversal it happens. *)
Lemma build_tree_stat_failure errno dir path s :
  build_tree (FsEntry (inl errno) dir) path s
  = Exit (Z.land errno 255)
         (logged ("[WARNING] stat failed: " ++ path) s).
Proof. reflexivity. Qed.

Lemma children_loop_result remove l :
  Forall (fun c => forall s r c' s',
              remove c s = Ret (r, c') s' -> r = true) l ->
  forall result s r l' s',
    children_loop remove l result s = Ret (r, l') s' ->
    r = result /\ l' = [].
Proof.
  induction 1 as [|c nxt Hc _ IH]; intros result s r l' s' H; simpl in H.
  - inv_ret H. inversion H; auto.
  - inv_bind H. destruct a as [ok c'].
    apply Hc in Hrun. subst ok. eapply IH. eassumption.
Qed.

(** [remove_file_internal] never returns false: every [result = false]
    follows a call of [err], or a child that returned false. *)
Lemma remove_file_internal_result f : forall s r f' s',
  remove_file_internal f s = Ret (r, f') s' -> r = true.
Proof.
  induction f as [n sz ty | n sz ty subdirs self b IH] using file_nested_ind;
    intros s r f' s' H; simpl in H.
  - destruct (is_dir_bit ty); [discriminate|].
    apply remove_plain_Ret in H. tauto.
  - destruct (is_dir_bit ty); [|apply remove_plain_Ret in H; tauto].
    inv_bind H. destruct a as [result subdirs'].
    eapply children_loop_result in Hrun; [|exact IH].
    destruct Hrun; subst. simpl in H.
    inv_bind H. inv_bind Hrun. destruct a0 as [errno|].
    + inv_bind Hrun. exfalso. eapply err_not_Ret. eassumption.
    + apply ret_Ret in Hrun. destruct Hrun as [E _]. subst a.
      inv_bind H. apply ret_Ret in H. destruct H as [E _].
      inversion E; reflexivity.
Qed.

(** [process_rm] on a name that resolves to nothing dereferences NULL. *)
Lemma process_rm_unresolved cur l s s' :
  is_empty_line (Some l) = false ->
  next_entity cur l s = Ret None s' ->
  process_rm cur (Some l) s = Fault NullDereference.
Proof.
  intros He Hn. unfold process_rm, to_remove. rewrite He.
  unfold bind. rewrite Hn. reflexivity.
Qed.

Lemma remove_file_root f s r p s' :
  remove_file (f, []) s = Ret (r, p) s' -> p = None.
Proof.
  unfold remove_file. intros H. inv_bind H. destruct a. inv_bind H.
  apply ret_Ret in H. destruct H as [E _]. inversion E; reflexivity.
Qed.

(** [process_rm] does not look at what [remove_file] returns: when the
    target is the root and [remove_file] returns, the message is written and
    NULL is returned. *)
Lemma process_rm_root cur line t s s0 r p s' :
  to_remove cur line s = Ret (Some (t, [])) s0 ->
  remove_file (t, []) s0 = Ret (r, p) s' ->
  process_rm cur line s
  = Ret None (logged MSG_ROOT_REMOVED s').
Proof.
  intros Ht H. pose proof (remove_file_root _ _ _ _ _ H). subst p.
  unfold process_rm. rewrite (bind_eq_Ret _ _ _ _ _ Ht).
  rewrite (bind_eq_Ret _ _ _ _ _ H). reflexivity.
Qed.

(** On which [main] leaves with status 0. *)
Lemma rm_root_ends_session cur cur' line arg rest t s s0 s1 r p s' :
  print_node cur s = Ret cur' s0 ->
  begins_with_slash line = true ->
  strsep line = ("/rm"%string, arg) ->
  to_remove cur' arg s0 = Ret (Some (t, [])) s1 ->
  remove_file (t, []) s1 = Ret (r, p) s' ->
  main_loop cur (line :: rest) s
  = Ret 0 (logged MSG_ROOT_REMOVED s').
Proof.
  intros Hp Hb Hs Ht Hr. simpl.
  rewrite (bind_eq_Ret _ _ _ _ _ Hp).
  assert (Hd : dispatch cur' line s0
               = Ret None (logged MSG_ROOT_REMOVED s')).
  { unfold dispatch, process_command. rewrite Hb, Hs. simpl.
    eapply process_rm_root; eassumption. }
  rewrite (bind_eq_Ret _ _ _ _ _ Hd). reflexivity.
Qed.

(** When [remove_file] returns from the root, the root has been freed. *)
Lemma remove_file_root_freed f s r p s' :
  remove_file (f, []) s = Ret (r, p) s' -> st_tree_freed s' = true.
Proof.
  unfold remove_file. intros H. inv_bind H. destruct a as [result f'].
  apply remove_file_internal_result in Hrun. subst result.
  inv_bind H. inv_ret H. unfold free_root in Hrun.
  inversion Hrun; reflexivity.
Qed.

(** So a session in which [/rm] reaches the root and [remove_file] returns
    ends in [deallocate_files] on freed memory, not in [return 0]. *)
Lemma rm_root_use_after_free cur cur' line arg rest t s s0 s1 r p s' :
  print_node cur s = Ret cur' s0 ->
  begins_with_slash line = true ->
  strsep line = ("/rm"%string, arg) ->
  to_remove cur' arg s0 = Ret (Some (t, [])) s1 ->
  remove_file (t, []) s1 = Ret (r, p) s' ->
  (exit_code <- main_loop cur (line :: rest) ;;
   deallocate_files ;;; ret exit_code) s
  = Fault UseAfterFree.
Proof.
  intros Hp Hb Hs Ht Hr.
  rewrite (bind_eq_Ret _ _ _ _ _
             (rm_root_ends_session _ _ _ _ rest _ _ _ _ _ _ _ Hp Hb Hs Ht Hr)).
  unfold bind, deallocate_files, logged. simpl.
  rewrite (remove_file_root_freed _ _ _ _ _ Hr). reflexivity.
Qed.

(** The loop follows [displays]. *)
Lemma main_loop_step cur line rest s cur' s0 c s1 :
  print_node cur s = Ret cur' s0 ->
  dispatch cur' line s0 = Ret (Some c) s1 ->
  main_loop cur (line :: rest) s = main_loop c rest s1.
Proof.
  intros Hp Hd. simpl.
  rewrite (bind_eq_Ret _ _ _ _ _ Hp), (bind_eq_Ret _ _ _ _ _ Hd).
  reflexivity.
Qed.

(** A listed entry on which [lstat] fails is never skipped: the build of
    the directory does not return. *)
Lemma readdir_loop_unreadable_entry build path d_name errno dir ents :
  In (d_name, FsEntry (inl errno) dir) ents ->
  is_dot_or_dotdot d_name = false ->
  (forall p s o s',
      build (FsEntry (inl errno) dir) p s <> Ret o s') ->
  forall subdirs sz s r s',
    readdir_loop build path ents subdirs sz s <> Ret r s'.
Proof.
  intros Hin Hdot Hbuild.
  induction ents as [|[d c] rest IH]; [destruct Hin|].
  intros subdirs sz s r s' H. simpl in H.
  destruct Hin as [E | Hin].
  - inversion E; subst d c. rewrite Hdot in H.
    destruct (concat_path path d_name) as [subpath|]; [|discriminate].
    inv_bind H. eapply Hbuild. eassumption.
  - specialize (IH Hin).
    destruct (is_dot_or_dotdot d); [eapply IH; eassumption|].
    destruct (concat_path path d) as [subpath|]; [|discriminate].
    inv_bind H. destruct a as [nf|]; inv_bind H; eapply IH; eassumption.
Qed.

Lemma build_tree_unreadable_entry st ents path d_name errno dir s o s' :
  S_ISDIR (st_mode st) = true ->
  In (d_name, FsEntry (inl errno) dir) ents ->
  is_dot_or_dotdot d_name = false ->
  build_tree (FsEntry (inr st) (Some ents)) path s <> Ret o s'.
Proof.
  intros Hd Hin Hdot H. simpl in H. rewrite Hd in H. inv_bind H.
  eapply readdir_loop_unreadable_entry; try eassumption.
  intros p s1 o1 s1' Hb. simpl in Hb. inv_bind Hb.
  eapply err_not_Ret. eassumption.
Qed.

Lemma main_loop_returns_0 input : forall cur s code s',
  main_loop cur input s = Ret code s' -> code = 0.
Proof.
  induction input as [|line rest IH]; intros cur s code s' H; simpl in H;
    inv_bind H.
  - inv_ret H. reflexivity.
  - inv_bind H. destruct a0 as [c|].
    + eapply IH. eassumption.
    + inv_ret H. reflexivity.
Qed.

(** When [main] returns, it returns 0 or 1. *)
Lemma main_returns_0_or_1 argc open_dot base_path disk input s code s' :
  main argc open_dot base_path disk input s = Ret code s' ->
  code = 0 \/ code = 1.
Proof.
  unfold main. intros H.
  destruct ((argc =? 1) || (argc =? 2))%bool.
  - destruct open_dot as [errno|].
    + inv_bind H. inv_ret H. auto.
    + inv_bind H. destruct a as [t|].
      * inv_bind H. inv_bind H. inv_ret H.
        left. eapply main_loop_returns_0. eassumption.
      * inv_bind H. inv_ret H. auto.
  - inv_bind H. inv_ret H. auto.
Qed.

(** [main] returns 1 only for a wrong number of arguments: the two other
    assignments of 1 to [exit_code] follow a call of [err] and a NULL from
    [build_tree], neither of which is reached. *)
Lemma main_returns_1_iff_bad_argc argc open_dot base_path disk input s code s' :
  main argc open_dot base_path disk input s = Ret code s' ->
  (code = 1 <-> ((argc =? 1) || (argc =? 2))%bool = false).
Proof.
  unfold main. intros H.
  destruct ((argc =? 1) || (argc =? 2))%bool.
  - destruct open_dot as [errno|].
    + inv_bind H. inv_bind Hrun. exfalso. eapply err_not_Ret.
      unfold err. rewrite (bind_eq_Ret _ _ _ _ _ Hrun0). exact Hrun.
    + inv_bind H. destruct a as [t|].
      * inv_bind H. inv_bind H. inv_ret H.
        apply main_loop_returns_0 in Hrun0. subst.
        split; discriminate.
      * exfalso. eapply build_tree_returns_node; [exact Hrun|reflexivity].
  - inv_bind H. inv_ret H. split; reflexivity.
Qed.

(** C2.  A failed [lstat] on an entry of a listed directory.  With entry
    [a] unreadable (EACCES) and entry [b] a file, [build_tree] does not
    return a tree without [a]: the process ends in [err] with status 13,
    on the root of the walk and below it alike. *)
Theorem child_stat_failure_ends_process :
  build_tree Examples.half_readable "/r" (Examples.boot Examples.permissive)
  = Exit 13 (mkState Examples.permissive []
                     ["[WARNING] stat failed: /r/a"%string] false)
  /\ exit_status (main 1 None "/r" Examples.half_readable []
                       (Examples.boot Examples.permissive))
     = Some 13.
Proof. split; reflexivity. Qed.

(** C3.  A child that cannot be removed.  In the fixture tree with [/r/b]
    undeletable, removing [/r] removes [/r/c], fails on [/r/b] and ends the
    process in [err] with status 13: [/r/a] is not tried, the size of [/r]
    is not recomputed and nothing is returned. *)
Theorem child_removal_failure_ends_process :
  remove_file_internal Examples.root_dir
                       (Examples.boot (Examples.stubborn "/r/b"))
  = Exit 13 (mkState (Examples.stubborn "/r/b")
                     [Unlink "/r/c/d"; Rmdir "/r/c";
                      Unlink "/r/b"; Rmdir "/r/b"]
                     ["[ERROR] cannot remove /r/b; skipping"%string] false).
Proof. reflexivity. Qed.

(** C4.  [/rm] that fails.  On the root of the fixture tree, [/rm nosuch]
    and [/rm ..] dereference the NULL that [next_entity] returned, and
    [/rm a] with [/r/a] undeletable ends the process in [err] with status
    13; none returns to the loop with the cursor where it was. *)
Theorem failed_rm_does_not_return :
  dispatch (Examples.root_dir, []) "/rm nosuch"
           (Examples.boot Examples.permissive)
  = Fault NullDereference
  /\ dispatch (Examples.root_dir, []) "/rm .."
              (Examples.boot Examples.permissive)
     = Fault NullDereference
  /\ dispatch (Examples.root_dir, []) "/rm a"
              (Examples.boot Examples.refusing)
     = Exit 13 (mkState Examples.refusing [Unlink "/r/a"; Rmdir "/r/a"]
                        ["[ERROR] cannot remove /r/a; skipping"%string] false).
Proof. repeat split; reflexivity. Qed.

(** C7.  [..] at the root, as the argument of [/rm].  On the root,
    whatever node it is, [next_entity] resolves [..] to NULL and returns.
    The navigation path of [main] tests for NULL: the line [..] writes
    "[ERROR] no such file: .." and leaves the cursor on the root.
    [process_rm] does not test: the line [/rm ..] dereferences the NULL,
    so nothing is reported, and a session whose display of the root
    returned ends there, whatever lines follow. *)
Theorem rm_dotdot_at_root_faults f s :
  next_entity (f, []) ".."%string s = Ret None s
  /\ dispatch (f, []) ".."%string s
     = Ret (Some (f, [])) (logged "[ERROR] no such file: .."%string s)
  /\ dispatch (f, []) "/rm .."%string s = Fault NullDereference
  /\ (forall rest c' s',
         print_node (f, []) s = Ret c' s' ->
         main_loop (f, []) ("/rm .."%string :: rest)%list s
         = Fault NullDereference).
Proof.
  split; [reflexivity|]. split; [reflexivity|]. split; [reflexivity|].
  intros rest c' s' Hp. simpl main_loop.
  rewrite (bind_eq_Ret _ _ _ _ _ Hp).
  assert (E : snd c' = []).
  { unfold print_node in Hp. destruct (type f =? TYPE_DIR).
    - inv_bind Hp. destruct a as [l d].
      apply ret_Ret in Hp. destruct Hp as [E _]. subst c'. reflexivity.
    - apply ret_Ret in Hp. destruct Hp as [E _]. subst c'. reflexivity. }
  destruct c' as [d up]. simpl in E. subst up. reflexivity.
Qed.

(** C9.  Exit statuses other than 0 and 1.  The process ends with status
    13 (EACCES) when [lstat] fails on the starting path, when [open(".")]
    fails, and when a removal fails during the session; and after the root
    was removed it does not reach [return exit_code]: [deallocate_files]
    runs on the freed root. *)
Theorem exit_status_is_errno :
  exit_status (main 1 None "/r" Examples.unreadable []
                    (Examples.boot Examples.permissive))
  = Some 13
  /\ exit_status (main 1 (Some Examples.EACCES) "/r" Examples.fixture []
                       (Examples.boot Examples.permissive))
     = Some 13
  /\ exit_status (main 1 None "/r" Examples.fixture ["/rm a"%string]
                       (Examples.boot Examples.refusing))
     = Some 13
  /\ main 1 None "/r" Examples.fixture ["/rm"%string]
          (Examples.boot Examples.permissive)
     = Fault UseAfterFree.
Proof. repeat split; reflexivity. Qed.

(** C10.  [/rm] on the root.  With the root a plain file that neither
    [unlink] nor [rmdir] removes, the session ends in [err] with status 13
    and without the message about the root.  With a root that is removed,
    the loop writes the message and leaves with [exit_code] 0, and [main]
    then runs [deallocate_files] on the freed root. *)
Theorem rm_root_does_not_exit_0 :
  main 1 None "/r" (Examples.reg 100) ["/rm"%string]
       (Examples.boot Examples.refusing)
  = Exit 13 (mkState Examples.refusing [Unlink "/r"; Rmdir "/r"]
                     ["[ERROR] cannot remove /r; skipping"%string] false)
  /\ main_loop (File "/r" 100 8, []) ["/rm"%string]
               (Examples.boot Examples.permissive)
     = Ret 0 (mkState Examples.permissive [Unlink "/r"]
                      [MSG_ROOT_REMOVED] true)
  /\ main 1 None "/r" (Examples.reg 100) ["/rm"%string]
          (Examples.boot Examples.permissive)
     = Fault UseAfterFree.
Proof. repeat split; reflexivity. Qed.

(* ===================================================================== *)
(** * The sort flag tells the truth in every reachable tree *)
(* ===================================================================== *)

Lemma descending_Sorted l :
  descending (map size l) = true <-> Sorted desc l.
Proof.
  induction l as [|x l IH]; [split; [constructor | reflexivity]|].
  destruct l as [|y l].
  - split; [repeat constructor | reflexivity].
  - change (descending (map size (x :: y :: l)))
      with ((size y <=? size x) && descending (map size (y :: l))).
    rewrite andb_true_iff, IH, Z.leb_le. split.
    + intros [Hle Hs]. constructor; [exact Hs|].
      constructor. unfold desc. lia.
    + intros Hs. inversion Hs as [|? ? Hs' Hd]; subst.
      inversion Hd; subst. unfold desc in *. split; [lia | exact Hs'].
Qed.

Lemma root_of_cache_ok ctx : forall f,
  cache_ok (root_of f ctx) = cache_ok f && frames_cache_ok (size f) ctx.
Proof.
  induction ctx as [|fr up IH]; intros f; simpl.
  - rewrite andb_true_r. reflexivity.
  - rewrite IH. simpl. rewrite forallb_app, map_app. simpl.
    destruct (cache_ok f), (forallb cache_ok (fr_before fr)),
      (forallb cache_ok (fr_after fr)), (frames_cache_ok (fr_size fr) up),
      (flag_ok _ _); reflexivity.
Qed.

(** At a cursor of a tree whose flags tell the truth, the flag of the node
    itself does. *)
Lemma cache_ok_valid f ctx :
  cache_ok (root_of f ctx) = true -> cache_valid f.
Proof.
  rewrite root_of_cache_ok. intros H. apply andb_prop in H.
  destruct H as [H _]. destruct f as [|n sz ty l self b]; intros Hb;
    simpl in Hb; [discriminate|]. subst b. simpl in H.
  apply andb_prop in H. destruct H as [H _].
  apply Sorted_adjacent_desc, descending_Sorted. exact H.
Qed.

Lemma readdir_loop_cache_ok build path ents :
  Forall (fun p => forall path s t s',
              build (snd p) path s = Ret (Some t) s' -> cache_ok t = true)
         ents ->
  forall subdirs sz s subdirs' sz' s',
    forallb cache_ok subdirs = true ->
    readdir_loop build path ents subdirs sz s = Ret (subdirs', sz') s' ->
    forallb cache_ok subdirs' = true.
Proof.
  induction 1 as [|[d_name child] rest Hc _ IH];
    intros subdirs sz s subdirs' sz' s' Hok H; simpl in H.
  - inv_ret H. inversion H; subst. exact Hok.
  - destruct (is_dot_or_dotdot d_name); [eapply IH; eassumption|].
    destruct (concat_path path d_name) as [subpath|]; [|discriminate].
    inv_bind H. destruct a as [nf|].
    + apply Hc in Hrun. inv_bind H. eapply IH; [|exact H].
      simpl. rewrite Hrun, Hok. reflexivity.
    + inv_bind H. eapply IH; eassumption.
Qed.

Lemma build_tree_cache_ok e : forall path s t s',
  build_tree e path s = Ret (Some t) s' -> cache_ok t = true.
Proof.
  induction e as [l | l ents IH] using fs_entry_nested_ind;
    intros path s t s' H; simpl in H; destruct l as [errno|st].
  - inv_bind H. exfalso. eapply err_not_Ret. eassumption.
  - destruct (S_ISDIR (st_mode st)); apply ret_Ret in H;
      destruct H as [E _]; inversion E; reflexivity.
  - inv_bind H. exfalso. eapply err_not_Ret. eassumption.
  - destruct (S_ISDIR (st_mode st)).
    + inv_bind H. destruct a as [subdirs sz].
      apply ret_Ret in H. destruct H as [E _]. inversion E; subst t.
      eapply readdir_loop_cache_ok in Hrun; [|exact IH|reflexivity].
      simpl. exact Hrun.
    + apply ret_Ret in H. destruct H as [E _]. inversion E; reflexivity.
Qed.

(** The node a call of [remove_file_internal] leaves when it returns: a
    plain node as it was, a directory without children. *)
Lemma remove_file_internal_Ret f s r f' s' :
  remove_file_internal f s = Ret (r, f') s' ->
  r = true
  /\ (f' = f
      \/ exists n sz ty l self b,
          f = Directory n sz ty l self b
          /\ f' = Directory n (self + 0) ty [] self (Some false)).
Proof.
  intros H. split; [eapply remove_file_internal_result; eassumption|].
  destruct f as [n sz ty | n sz ty subdirs self b]; simpl in H.
  - destruct (is_dir_bit ty); [discriminate|].
    apply remove_plain_Ret in H. tauto.
  - destruct (is_dir_bit ty); [|apply remove_plain_Ret in H; tauto].
    right. inv_bind H. destruct a as [result subdirs'].
    eapply children_loop_result in Hrun.
    + destruct Hrun; subst. inv_bind H. inv_bind H.
      apply update_size_Ret in Hrun0.
      destruct Hrun0 as (n' & sz' & ty' & l & self' & b' & E & E' & _).
      inversion E; subst. apply ret_Ret in H. destruct H as [E' _].
      inversion E'; subst. exists n', sz', ty', subdirs, self', b'. auto.
    + apply Forall_forall. intros c _ s2 r2 c' s2' Hc.
      eapply remove_file_internal_result. eassumption.
Qed.

Lemma frames_cache_ok_siblings ctx : forall k,
  frames_cache_ok k ctx = true ->
  Forall (fun fr => forallb cache_ok (fr_before fr) = true
                    /\ forallb cache_ok (fr_after fr) = true) ctx.
Proof.
  induction ctx as [|fr up IH]; intros k H; constructor; simpl in H;
    repeat (apply andb_prop in H; destruct H as [H ?]).
  - auto.
  - eapply IH; eassumption.
Qed.

Lemma update_sizes_up_cache_ok up : forall child s up' s',
  update_sizes_up child up s = Ret up' s' ->
  Forall (fun fr => forallb cache_ok (fr_before fr) = true
                    /\ forallb cache_ok (fr_after fr) = true) up ->
  forall k, frames_cache_ok k up' = true.
Proof.
  induction up as [|fr up IH]; intros child s up' s' H Hsib k; simpl in H.
  - inv_ret H. reflexivity.
  - inversion Hsib as [|? ? [Hb Ha] Hsib']; subst.
    inv_bind H. apply update_size_frame_Ret in Hrun. destruct Hrun; subst.
    inv_bind H. inv_ret H. simpl. rewrite Hb, Ha. simpl.
    eapply IH; eassumption.
Qed.

Lemma remove_file_cache_ok f ctx s r d up s' :
  cache_ok (root_of f ctx) = true ->
  remove_file (f, ctx) s = Ret (r, Some (d, up)) s' ->
  cache_ok (root_of d up) = true.
Proof.
  intros Hok H. rewrite root_of_cache_ok in Hok. apply andb_prop in Hok.
  destruct Hok as [_ Hctx]. unfold remove_file in H.
  inv_bind H. destruct a as [result f'].
  apply remove_file_internal_result in Hrun. subst result.
  destruct ctx as [|fr rest]; [inv_bind H; inv_ret H; discriminate|].
  inv_bind H. inv_bind H. apply ret_Ret in H. destruct H as [E _].
  inversion E; subst. clear E.
  pose proof (frames_cache_ok_siblings _ _ Hctx) as Hsib.
  inversion Hsib as [|? ? [Hb Ha] Hsib']; subst.
  rewrite root_of_cache_ok.
  rewrite (update_sizes_up_cache_ok _ _ _ _ _ Hrun0 Hsib'), andb_true_r.
  apply update_size_Ret in Hrun.
  destruct Hrun as (n' & sz' & ty' & l & self' & b' & E & E' & _). subst d.
  inversion E; subst. simpl. rewrite forallb_app, Hb, Ha. reflexivity.
Qed.

Lemma sorted_subdirs_Ret_sorted d s l d' s' :
  sorted_subdirs d s = Ret (l, d') s' ->
  cache_valid d -> Sorted desc l.
Proof.
  intros H Hv. destruct d as [|n sz ty subdirs self [[|]|]];
    try discriminate.
  - inversion H; subst. apply adjacent_desc_Sorted, Hv. reflexivity.
  - destruct (sorted_subdirs_dirty n sz ty subdirs self s)
      as (l0 & El & _ & Sl & _).
    rewrite El in H. inversion H; subst. exact Sl.
Qed.

Lemma print_node_cache_ok c s c' s' :
  print_node c s = Ret c' s' ->
  cache_ok (root_of (fst c) (snd c)) = true ->
  cache_ok (root_of (fst c') (snd c')) = true.
Proof.
  unfold print_node. destruct c as [f ctx].
  destruct (type f =? TYPE_DIR).
  - intros H Hok. inv_bind H. destruct a as [l d]. inv_ret H.
    pose proof (sorted_subdirs_Ret_sorted _ _ _ _ _ Hrun
                  (cache_ok_valid _ _ Hok)) as Hs.
    apply sorted_subdirs_Ret in Hrun.
    destruct Hrun as (n & sz & ty & subdirs & self & b & E & E' & P & _).
    subst. simpl in *. rewrite root_of_cache_ok in *. simpl in *.
    apply andb_prop in Hok. destruct Hok as [Hok Hctx].
    apply andb_prop in Hok. destruct Hok as [_ Hall].
    rewrite Hctx, <- (forallb_perm _ _ _ P), Hall.
    rewrite (proj2 (descending_Sorted l) Hs). reflexivity.
  - intros H Hok. inv_ret H. exact Hok.
Qed.

Lemma dispatch_cache_ok cur line s c' s' :
  dispatch cur line s = Ret (Some c') s' ->
  cache_ok (root_of (fst cur) (snd cur)) = true ->
  cache_ok (root_of (fst c') (snd c')) = true.
Proof.
  unfold dispatch. intros H Hok.
  destruct (begins_with_slash line).
  - unfold process_command in H. destruct (strsep line) as [cmd rest].
    destruct (String.eqb cmd "/rm").
    + unfold process_rm, to_remove in H. inv_bind H.
      destruct a as [[t tctx]|]; [|discriminate].
      assert (Ht : cache_ok (root_of t tctx) = true).
      { destruct rest as [l|].
        - destruct (is_empty_line (Some l)).
          + apply ret_Ret in Hrun. destruct Hrun as [E _].
            inversion E; subst cur. exact Hok.
          + apply next_entity_same_tree in Hrun. destruct Hrun as [E _].
            simpl in E. rewrite E. exact Hok.
        - apply ret_Ret in Hrun. destruct Hrun as [E _].
          inversion E; subst cur. exact Hok. }
      inv_bind H. destruct a as [r [[d up]|]].
      * apply ret_Ret in H. destruct H as [E _]. inversion E; subst c'.
        simpl. eapply remove_file_cache_ok; eassumption.
      * inv_bind H. apply ret_Ret in H. destruct H as [E _]. discriminate E.
    + destruct (String.eqb cmd "/help");
        inv_bind H; apply ret_Ret in H; destruct H as [E _];
        inversion E; subst c'; exact Hok.
  - inv_bind H. destruct a as [n|].
    + apply ret_Ret in H. destruct H as [E _]. inversion E; subst c'.
      apply next_entity_same_tree in Hrun. destruct Hrun as [E' _].
      rewrite E'. exact Hok.
    + inv_bind H. apply ret_Ret in H. destruct H as [E _].
      inversion E; subst c'. exact Hok.
Qed.

Lemma displays_cache_ok cur input s d :
  displays cur input s d ->
  cache_ok (root_of (fst cur) (snd cur)) = true ->
  cache_ok (root_of (fst d) (snd d)) = true.
Proof.
  induction 1 as [cur input s d s' Hp
                 | cur line rest s cur' s0 c s1 d Hp Hd _ IH]; intros Hok.
  - exact (print_node_cache_ok _ _ _ _ Hp Hok).
  - apply IH. eapply dispatch_cache_ok; [exact Hd|].
    exact (print_node_cache_ok _ _ _ _ Hp Hok).
Qed.

(** In a session on a tree that was built, the flag tells the truth at
    every node the loop moves to. *)
Lemma session_cache_valid e path s t s' input line d s0 c s1 :
  build_tree e path s = Ret (Some t) s' ->
  displays (t, []) input s' d ->
  dispatch d line s0 = Ret (Some c) s1 ->
  cache_valid (fst c).
Proof.
  intros Hb Hd Hc. apply (cache_ok_valid _ (snd c)).
  eapply dispatch_cache_ok; [exact Hc|].
  apply (displays_cache_ok _ _ _ _ Hd).
  exact (build_tree_cache_ok _ _ _ _ _ Hb).
Qed.

Lemma built_cache_valid e path s t s' :
  build_tree e path s = Ret (Some t) s' -> cache_valid t.
Proof.
  intros Hb. apply (cache_ok_valid t []).
  exact (build_tree_cache_ok _ _ _ _ _ Hb).
Qed.

(* ===================================================================== *)
(** * The end-to-end fixture of the specification *)
(* ===================================================================== *)

(** The root of the fixture is built with size 600 and children [c], [b],
    [a] (each new child is linked in front). *)
Example fixture_build :
  build_tree Examples.fixture "/r" (Examples.boot Examples.permissive)
  = Ret (Some Examples.root_dir) (Examples.boot Examples.permissive).
Proof. reflexivity. Qed.

(** Its children are displayed in the order [c] (300), [b] (200),
    [a] (100). *)
Example fixture_sorted :
  sorted_subdirs Examples.root_dir (Examples.boot Examples.permissive)
  = Ret ([Examples.dir_c; Examples.file_b; Examples.file_a],
         Directory "/r" 600 4
                   [Examples.dir_c; Examples.file_b; Examples.file_a]
                   0 (Some true))
        (Examples.boot Examples.permissive).
Proof. reflexivity. Qed.

(** After [/rm a] the root has size 500 and the children [c] and [b]. *)
Example fixture_rm_a :
  dispatch (Examples.root_dir, []) "/rm a"
           (Examples.boot Examples.permissive)
  = Ret (Some (Directory "/r" 500 4 [Examples.dir_c; Examples.file_b] 0
                         (Some false), []))
        (mkState Examples.permissive [Unlink "/r/a"] [] false).
Proof. reflexivity. Qed.

(** A whole session: down into [c], remove it from inside, which moves the
    cursor back to the root, a name that does not resolve, end of input. *)
Example fixture_session :
  main 1 None "/r" Examples.fixture ["c"; "/rm"; "zz"]%string
       (Examples.boot Examples.permissive)
  = Ret 0 (mkState Examples.permissive
                   [Unlink "/r/c/d"; Rmdir "/r/c"]
                   ["[ERROR] no such file: zz"%string] false).
Proof. reflexivity. Qed.

(* ===================================================================== *)
(** * Paths and input lines *)
(* ===================================================================== *)

Lemma get_file_name_loop_no_slash s : forall r,
  has_slash s = false -> get_file_name_loop s false r = r.
Proof.
  induction s as [|c s IH]; intros r H; simpl in *; [reflexivity|].
  apply orb_false_iff in H. destruct H as [Hc Hs]. rewrite Hc.
  apply IH. exact Hs.
Qed.

Lemma get_file_name_loop_segment a b : forall prev r,
  b <> EmptyString -> has_slash b = false ->
  get_file_name_loop (a ++ String slash b)%string prev r = b.
Proof.
  intros prev r Hb Hs. revert prev r.
  induction a as [|c a IH]; intros prev r; simpl.
  - destruct b as [|c b]; [congruence|]. simpl in *.
    apply orb_false_iff in Hs. destruct Hs as [Hc Hs]. rewrite Hc.
    apply get_file_name_loop_no_slash. exact Hs.
  - destruct (Ascii.eqb c slash); apply IH.
Qed.

Lemma last_char_split a c :
  last_char a = Some c -> exists a0, a = (a0 ++ String c EmptyString)%string.
Proof.
  induction a as [|x a IH]; [discriminate|].
  destruct a as [|y a].
  - intros H. inversion H; subst. exists EmptyString. reflexivity.
  - intros H. change (last_char (String y a) = Some c) in H.
    destruct (IH H) as [a0 E]. exists (String x a0). simpl. rewrite <- E.
    reflexivity.
Qed.

Lemma string_app_assoc a b c :
  ((a ++ b) ++ c = a ++ (b ++ c))%string.
Proof. induction a as [|x a IH]; simpl; [reflexivity | rewrite IH; reflexivity]. Qed.

Lemma get_file_name_joined a b p :
  concat_path a b = Some p ->
  b <> EmptyString ->
  has_slash b = false ->
  get_file_name p = b.
Proof.
  unfold concat_path, get_file_name. intros H Hb Hs.
  destruct (last_char a) as [c|] eqn:El; [|discriminate].
  destruct (Ascii.eqb c slash) eqn:Ec; inversion H; subst p; clear H.
  - apply Ascii.eqb_eq in Ec. subst c.
    destruct (last_char_split _ _ El) as [a0 E]. subst a.
    rewrite string_app_assoc. simpl.
    apply get_file_name_loop_segment; assumption.
  - apply get_file_name_loop_segment; assumption.
Qed.

(** X1.  The last segment of a joined path.  For a directory path [a] and an
    entry name [b] that is not empty and contains no slash, [get_file_name]
    of [concat_path a b] is [b], whether or not [a] ends in a slash: the
    name [next_entity] compares with is the name [readdir] gave. *)
Theorem get_file_name_concat_path a b p :
  concat_path a b = Some p ->
  b <> EmptyString ->
  has_slash b = false ->
  get_file_name p = b.
Proof. exact (get_file_name_joined a b p). Qed.

Lemma get_file_name_concat_path_witness :
  concat_path "/r/c/" "d" = Some "/r/c/d"%string
  /\ "d"%string <> EmptyString
  /\ has_slash "d" = false
  /\ get_file_name "/r/c/d" = "d"%string.
Proof.
  assert (H1 : concat_path "/r/c/" "d" = Some "/r/c/d"%string)
    by reflexivity.
  assert (H2 : "d"%string <> EmptyString) by discriminate.
  assert (H3 : has_slash "d" = false) by reflexivity.
  split; [exact H1|]. split; [exact H2|]. split; [exact H3|].
  exact (get_file_name_concat_path _ _ _ H1 H2 H3).
Defined.

(** X2.  [strsep].  The token returned contains no delimiter; when a rest
    is returned, the line is the token, one delimiter and the rest; when
    none is, the line is the token. *)
Theorem strsep_splits line :
  has_delim (fst (strsep line)) = false
  /\ match snd (strsep line) with
     | Some rest =>
         exists d, is_delim d = true
                   /\ line = (fst (strsep line) ++ String d rest)%string
     | None => line = fst (strsep line)
     end.
Proof.
  induction line as [|c line IH]; simpl; [auto|].
  destruct (is_delim c) eqn:Ec; simpl.
  - split; [reflexivity|]. exists c. auto.
  - destruct (strsep line) as [tok [rest|]]; simpl in *; rewrite Ec;
      destruct IH as [IH1 IH2]; split; try assumption.
    + destruct IH2 as (d & Hd & E). exists d. split; [exact Hd|].
      rewrite E at 1. reflexivity.
    + rewrite IH2 at 1. reflexivity.
Qed.

Lemma skip_space_head line c r :
  skip_space line = String c r -> isspace c = false.
Proof.
  induction line as [|x line IH]; simpl; [discriminate|].
  destruct (isspace x) eqn:Ex; [exact IH|].
  intros H. inversion H; subst. exact Ex.
Qed.

Lemma skip_space_blank line :
  skip_space line = EmptyString <-> all_space line = true.
Proof.
  induction line as [|x line IH]; simpl; [tauto|].
  destruct (isspace x); [exact IH|]. split; discriminate.
Qed.

Lemma cut_trailing_space_last s c :
  last_char (cut_trailing_space s) = Some c -> isspace c = false.
Proof.
  induction s as [|x s IH]; simpl; [discriminate|].
  destruct (cut_trailing_space s) as [|y r] eqn:E.
  - destruct (isspace x) eqn:Ex; simpl; [discriminate|].
    intros H. inversion H; subst. exact Ex.
  - intros H. apply IH. exact H.
Qed.

Lemma cut_trailing_space_idem s :
  cut_trailing_space (cut_trailing_space s) = cut_trailing_space s.
Proof.
  induction s as [|x s IH]; simpl; [reflexivity|].
  destruct (cut_trailing_space s) as [|y r] eqn:E.
  - destruct (isspace x) eqn:Ex; simpl; [reflexivity|].
    rewrite Ex. reflexivity.
  - change (cut_trailing_space (String x (String y r))) with
      (match cut_trailing_space (String y r) with
       | EmptyString =>
           if isspace x then EmptyString else String x EmptyString
       | r' => String x r'
       end).
    rewrite IH. reflexivity.
Qed.

Lemma cut_trailing_space_keeps_head c s :
  isspace c = false ->
  exists r, cut_trailing_space (String c s) = String c r.
Proof.
  intros Hc. simpl. destruct (cut_trailing_space s).
  - rewrite Hc. eexists. reflexivity.
  - eexists. reflexivity.
Qed.

(** X3.  [extract_name] trims.  The name extracted from a line neither
    begins nor ends with whitespace, it is empty exactly when the line is
    blank in the sense of [is_empty_line], and extracting again changes
    nothing. *)
Theorem extract_name_trims line :
  (forall c r, extract_name line = String c r -> isspace c = false)
  /\ (forall c, last_char (extract_name line) = Some c -> isspace c = false)
  /\ (extract_name line = EmptyString <-> is_empty_line (Some line) = true)
  /\ extract_name (extract_name line) = extract_name line.
Proof.
  unfold extract_name, is_empty_line.
  destruct (skip_space line) as [|x start] eqn:E.
  - repeat split; try discriminate; try reflexivity.
    + intros _. apply skip_space_blank. exact E.
  - pose proof (skip_space_head _ _ _ E) as Hx.
    destruct (cut_trailing_space_keeps_head x start Hx) as [r Er].
    repeat split.
    + intros c r' H. rewrite Er in H. inversion H; subst. exact Hx.
    + apply cut_trailing_space_last.
    + rewrite Er. discriminate.
    + intros H. apply skip_space_blank in H. rewrite H in E. discriminate.
    + rewrite Er. simpl skip_space. rewrite Hx. rewrite <- Er.
      apply cut_trailing_space_idem.
Qed.

(* ===================================================================== *)
(** * More on the sorter *)
(* ===================================================================== *)

(** X4.  [merge].  The list [merge a b] returns holds the nodes of [a] and
    of [b] and nothing else, and when both are in descending order of size,
    so is the result. *)
Theorem merge_sorted_permutation a b :
  Permutation (a ++ b) (merge a b)
  /\ (adjacent_desc a -> adjacent_desc b -> adjacent_desc (merge a b)).
Proof.
  rewrite merge_merged. split.
  - apply merged_perm.
  - intros Ha Hb. apply Sorted_adjacent_desc.
    apply merged_sorted; apply adjacent_desc_Sorted; assumption.
Qed.

Lemma do_merge_sort_wrong_count n : forall files,
  List.length files <> n -> do_merge_sort files n = None.
Proof.
  induction n as [n IH] using lt_wf_ind. intros files Hlen.
  destruct n as [|[|k]].
  - destruct files; [contradiction|]. simp do_merge_sort. reflexivity.
  - destruct files as [|f [|? ?]]; simp do_merge_sort; try reflexivity.
    contradiction.
  - simp do_merge_sort. cbv zeta.
    set (m := (S (S k) / 2)%nat).
    assert (Hm : (0 < m < S (S k))%nat).
    { split; [apply Nat.div_str_pos; lia | apply Nat.div_lt; lia]. }
    destruct (List.length files <? m)%nat eqn:El; [reflexivity|].
    apply Nat.ltb_ge in El.
    rewrite (IH (S (S k) - m)%nat ltac:(lia) (skipn m files)).
    + destruct (do_merge_sort (firstn m files) m); reflexivity.
    + rewrite length_skipn. lia.
Qed.

(** X5.  The count passed to [do_merge_sort].  The function gets through
    its assertions and list walks exactly when [n] is the number of nodes of
    the list; with any other count an assertion fails or the walk leaves the
    list. *)
Theorem do_merge_sort_defined_iff files n :
  do_merge_sort files n <> None <-> List.length files = n.
Proof.
  split.
  - intros H. destruct (Nat.eq_dec (List.length files) n) as [E|E];
      [exact E|]. exfalso. apply H.
    apply do_merge_sort_wrong_count. exact E.
  - intros E. destruct (do_merge_sort_spec n files E) as (l & El & _).
    rewrite El. discriminate.
Qed.

(* ===================================================================== *)
(** * More on name resolution *)
(* ===================================================================== *)

Lemma find_child_spec s l : forall before,
  match find_child s before l with
  | Some (b, c, a) =>
      exists skipped,
        b = before ++ skipped
        /\ l = skipped ++ c :: a
        /\ get_file_name (name c) = s
        /\ Forall (fun x => get_file_name (name x) <> s) skipped
  | None => Forall (fun x => get_file_name (name x) <> s) l
  end.
Proof.
  induction l as [|x l IH]; intros before; simpl; [constructor|].
  destruct (String.eqb (get_file_name (name x)) s) eqn:E.
  - apply String.eqb_eq in E. exists []. rewrite app_nil_r. auto.
  - apply String.eqb_neq in E. specialize (IH (before ++ [x])).
    destruct (find_child s (before ++ [x]) l) as [[[b c] a]|].
    + destruct IH as (skipped & Eb & El & Ec & Hsk).
      exists (x :: skipped). rewrite Eb, El, <- app_assoc.
      repeat split; auto.
    + constructor; assumption.
Qed.

(** X6.  What [next_entity] resolves a child name to.  On a listed
    directory and a name other than [..], [next_entity] returns, in the same
    state: NULL when no child has that last path segment, otherwise the
    first child in list order that has it, with the directory as its
    parent. *)
Theorem next_entity_first_match n sz subdirs self b ctx s st :
  String.eqb ".." s = false ->
  exists r,
    next_entity (Directory n sz TYPE_DIR subdirs self b, ctx) s st = Ret r st
    /\ match r with
       | None => Forall (fun x => get_file_name (name x) <> s) subdirs
       | Some (c, up) =>
           exists fr,
             up = fr :: ctx
             /\ plug fr c = Directory n sz TYPE_DIR subdirs self b
             /\ get_file_name (name c) = s
             /\ Forall (fun x => get_file_name (name x) <> s) (fr_before fr)
       end.
Proof.
  intros Hs. unfold next_entity. rewrite Hs.
  change (type (Directory n sz TYPE_DIR subdirs self b) =? TYPE_DIR)
    with true. cbv iota.
  pose proof (find_child_spec s subdirs []) as H.
  destruct (find_child s [] subdirs) as [[[before c] after]|].
  - destruct H as (skipped & Eb & El & Ec & Hsk). simpl in Eb. subst before.
    eexists. split; [reflexivity|]. eexists. split; [reflexivity|].
    unfold plug. simpl. rewrite El. auto.
  - eexists. split; [reflexivity|]. exact H.
Qed.

Lemma next_entity_first_match_witness :
  String.eqb ".." "b" = false
  /\ exists r,
      next_entity (Directory "/r" 600 TYPE_DIR
                             [Examples.dir_c; Examples.file_b; Examples.file_a]
                             0 (Some false), []) "b"
                  (Examples.boot Examples.permissive)
      = Ret r (Examples.boot Examples.permissive)
      /\ match r with
         | None =>
             Forall (fun x => get_file_name (name x) <> "b"%string)
                    [Examples.dir_c; Examples.file_b; Examples.file_a]
         | Some (c, up) =>
             exists fr,
               up = fr :: []
               /\ plug fr c
                  = Directory "/r" 600 TYPE_DIR
                              [Examples.dir_c; Examples.file_b;
                               Examples.file_a] 0 (Some false)
               /\ get_file_name (name c) = "b"%string
               /\ Forall (fun x => get_file_name (name x) <> "b"%string)
                         (fr_before fr)
         end.
Proof.
  assert (H : String.eqb ".." "b" = false) by reflexivity.
  split; [exact H|].
  exact (next_entity_first_match _ _ _ _ _ _ _ _ H).
Defined.

(** X7.  Down, then up.  After [next_entity] has resolved a child name from
    a node, resolving [..] from the child gives that node back, unchanged. *)
Theorem next_entity_down_up c s st c' st' :
  String.eqb ".." s = false ->
  next_entity c s st = Ret (Some c') st' ->
  next_entity c' ".." st' = Ret (Some c) st'.
Proof.
  intros Hs H. unfold next_entity in H. rewrite Hs in H.
  destruct c as [f ctx].
  destruct (type f =? TYPE_DIR); [|inv_ret H; discriminate].
  destruct f as [|n sz ty subdirs self b]; [discriminate|].
  destruct (find_child s [] subdirs) as [[[before ch] after]|] eqn:E;
    [|inv_ret H; discriminate].
  apply ret_Ret in H. destruct H as [Ec _]. inversion Ec; subst c'.
  apply find_child_split in E. simpl in E.
  unfold next_entity. simpl. unfold plug. simpl. rewrite E. reflexivity.
Qed.

Lemma next_entity_down_up_witness :
  String.eqb ".." "c" = false
  /\ next_entity (Examples.root_dir, []) "c"
                 (Examples.boot Examples.permissive)
     = Ret (Some (Examples.dir_c, [Examples.frame_r]))
           (Examples.boot Examples.permissive)
  /\ next_entity (Examples.dir_c, [Examples.frame_r]) ".."
                 (Examples.boot Examples.permissive)
     = Ret (Some (Examples.root_dir, []))
           (Examples.boot Examples.permissive).
Proof.
  assert (H1 : String.eqb ".." "c" = false) by reflexivity.
  assert (H2 : next_entity (Examples.root_dir, []) "c"
                           (Examples.boot Examples.permissive)
               = Ret (Some (Examples.dir_c, [Examples.frame_r]))
                     (Examples.boot Examples.permissive)) by reflexivity.
  split; [exact H1|]. split; [exact H2|].
  exact (next_entity_down_up _ _ _ _ _ H1 H2).
Defined.




(* ===================================================================== *)
(** * More on the tree builder *)
(* ===================================================================== *)

Lemma build_tree_name e path s t s' :
  build_tree e path s = Ret (Some t) s' -> name t = path.
Proof.
  destruct e as [[errno|st] dir]; simpl; intros H.
  - inv_bind H. exfalso. eapply err_not_Ret. eassumption.
  - destruct (S_ISDIR (st_mode st)); [destruct dir|].
    + inv_bind H. destruct a. apply ret_Ret in H. destruct H as [E _].
      inversion E; reflexivity.
    + apply ret_Ret in H. destruct H as [E _]. inversion E; reflexivity.
    + apply ret_Ret in H. destruct H as [E _]. inversion E; reflexivity.
Qed.

Lemma readdir_loop_names path ents : forall subdirs sz s subdirs' sz' s',
  readdir_loop build_tree path ents subdirs sz s = Ret (subdirs', sz') s' ->
  map some_name subdirs'
  = rev (map (fun p => concat_path path (fst p)) (listed ents))
    ++ map some_name subdirs.
Proof.
  induction ents as [|[d_name child] rest IH];
    intros subdirs sz s subdirs' sz' s' H; simpl in H.
  - inv_ret H. inversion H; subst. reflexivity.
  - unfold listed. simpl.
    destruct (is_dot_or_dotdot d_name) eqn:Ed; simpl.
    + eapply IH. eassumption.
    + destruct (concat_path path d_name) as [subpath|] eqn:Ec;
        [|discriminate].
      inv_bind H. destruct a as [nf|].
      * inv_bind H. apply IH in H. fold (listed rest). rewrite H.
        apply build_tree_name in Hrun. rewrite <- app_assoc.
        unfold some_name. simpl. rewrite Hrun. reflexivity.
      * exfalso. eapply build_tree_returns_node; [exact Hrun|reflexivity].
Qed.

Lemma S_ISDIR_type mode :
  S_ISDIR mode = true ->
  Z.shiftr (Z.land mode S_IFMT) FILE_TYPE_OFFSET = TYPE_DIR.
Proof.
  unfold S_ISDIR. intros H. apply Z.eqb_eq in H. rewrite H. reflexivity.
Qed.

Lemma build_tree_directory st ents path s t s' :
  S_ISDIR (st_mode st) = true ->
  build_tree (FsEntry (inr st) (Some ents)) path s = Ret (Some t) s' ->
  exists sz subdirs,
    t = Directory path sz TYPE_DIR subdirs (st_size st) (Some false)
    /\ map some_name subdirs
       = rev (map (fun p => concat_path path (fst p)) (listed ents)).
Proof.
  intros Hd H.
  simpl in H. rewrite Hd in H. inv_bind H. destruct a as [subdirs sz].
  apply ret_Ret in H. destruct H as [E _]. inversion E; subst t.
  exists sz, subdirs. rewrite (S_ISDIR_type _ Hd).
  split; [reflexivity|].
  apply readdir_loop_names in Hrun. rewrite Hrun. apply app_nil_r.
Qed.

(** X9.  The children of a directory that was built.  When [build_tree]
    returns from a directory it could open, the node is a listed directory
    that carries the path it was called with, its own size as [self_size]
    and a cleared sorted flag, and has exactly one child for each entry
    [readdir] gave other than [.] and [..], in the reverse of the order of
    listing, each named by [concat_path] of the directory's path and the
    entry's name: no entry is left out. *)
Theorem build_tree_children st ents path s t s' :
  S_ISDIR (st_mode st) = true ->
  build_tree (FsEntry (inr st) (Some ents)) path s = Ret (Some t) s' ->
  exists sz subdirs,
    t = Directory path sz TYPE_DIR subdirs (st_size st) (Some false)
    /\ map some_name subdirs
       = rev (map (fun p => concat_path path (fst p)) (listed ents)).
Proof. exact (build_tree_directory st ents path s t s'). Qed.

Lemma build_tree_children_witness :
  S_ISDIR 16877 = true
  /\ build_tree Examples.fixture "/r" (Examples.boot Examples.permissive)
     = Ret (Some Examples.root_dir) (Examples.boot Examples.permissive)
  /\ exists sz subdirs,
      Examples.root_dir
      = Directory "/r" sz TYPE_DIR subdirs 0 (Some false)
      /\ map some_name subdirs
         = rev (map (fun p => concat_path "/r" (fst p))
                    (listed [(".", Examples.dir 0 []);
                             ("..", Examples.dir 0 []);
                             ("a", Examples.reg 100); ("b", Examples.reg 200);
                             ("c", Examples.dir 0 [("d", Examples.reg 300)])]%string)).
Proof.
  assert (H1 : S_ISDIR 16877 = true) by reflexivity.
  assert (H2 : build_tree Examples.fixture "/r"
                          (Examples.boot Examples.permissive)
               = Ret (Some Examples.root_dir)
                     (Examples.boot Examples.permissive)) by reflexivity.
  split; [exact H1|]. split; [exact H2|].
  exact (build_tree_children (mkStat 16877 0) _ _ _ _ _ H1 H2).
Defined.

Lemma find_child_finds s l : forall before,
  (exists c, In c l /\ get_file_name (name c) = s) ->
  exists b c a,
    find_child s before l = Some (b, c, a)
    /\ get_file_name (name c) = s.
Proof.
  intros before Hex. pose proof (find_child_spec s l before) as H.
  destruct (find_child s before l) as [[[b c] a]|].
  - destruct H as (_ & _ & _ & Ec & _). exists b, c, a. auto.
  - exfalso. destruct Hex as (c & Hin & Ec).
    rewrite Forall_forall in H. exact (H c Hin Ec).
Qed.

(** X10.  Every listed entry can be entered by its name.  In the tree
    built from a directory, [next_entity] on the name of any entry that
    [readdir] gave (other than [.] and [..]; a name is not empty and has no
    slash) returns a child whose last path segment is that name. *)
Theorem built_entry_resolves st ents path s t s' d e ctx s1 :
  S_ISDIR (st_mode st) = true ->
  build_tree (FsEntry (inr st) (Some ents)) path s = Ret (Some t) s' ->
  In (d, e) ents ->
  is_dot_or_dotdot d = false ->
  d <> EmptyString ->
  has_slash d = false ->
  exists c up,
    next_entity (t, ctx) d s1 = Ret (Some (c, up)) s1
    /\ In c (children t)
    /\ get_file_name (name c) = d.
Proof.
  intros Hd Hb Hin Hdot Hne Hsl.
  assert (Hdd : String.eqb ".." d = false).
  { unfold is_dot_or_dotdot in Hdot. apply orb_false_iff in Hdot.
    destruct Hdot as [_ H]. rewrite String.eqb_sym. exact H. }
  destruct (build_tree_directory _ _ _ _ _ _ Hd Hb)
    as (sz & subdirs & Et & Hrun).
  subst t. simpl.
  assert (Hc : exists c, In c subdirs /\ get_file_name (name c) = d).
  { assert (Hl : In (concat_path path d)
                    (map (fun p => concat_path path (fst p)) (listed ents))).
    { apply (in_map (fun p => concat_path path (fst p)) _ (d, e)).
      unfold listed. apply filter_In. simpl. rewrite Hdot. auto. }
    apply in_rev in Hl. rewrite <- Hrun in Hl.
    apply in_map_iff in Hl. destruct Hl as (c & Ec & Hinc).
    exists c. split; [exact Hinc|]. unfold some_name in Ec.
    symmetry in Ec.
    exact (get_file_name_joined _ _ _ Ec Hne Hsl). }
  destruct (find_child_finds d subdirs [] Hc) as (b0 & c & a & Ef & Ec).
  unfold next_entity. rewrite Hdd. simpl. rewrite Ef.
  eexists. eexists. split; [reflexivity|]. split; [|exact Ec].
  apply find_child_split in Ef. simpl in Ef. rewrite <- Ef.
  apply in_or_app. right. left. reflexivity.
Qed.

Lemma built_entry_resolves_witness :
  S_ISDIR 16877 = true
  /\ build_tree Examples.fixture "/r" (Examples.boot Examples.permissive)
     = Ret (Some Examples.root_dir) (Examples.boot Examples.permissive)
  /\ In ("c"%string, Examples.dir 0 [("d"%string, Examples.reg 300)])
        [(".", Examples.dir 0 []); ("..", Examples.dir 0 []);
         ("a", Examples.reg 100); ("b", Examples.reg 200);
         ("c", Examples.dir 0 [("d", Examples.reg 300)])]%string
  /\ is_dot_or_dotdot "c" = false
  /\ "c"%string <> EmptyString
  /\ has_slash "c" = false
  /\ exists c up,
      next_entity (Examples.root_dir, []) "c"
                  (Examples.boot Examples.permissive)
      = Ret (Some (c, up)) (Examples.boot Examples.permissive)
      /\ In c (children Examples.root_dir)
      /\ get_file_name (name c) = "c"%string.
Proof.
  assert (H1 : S_ISDIR 16877 = true) by reflexivity.
  assert (H2 : build_tree Examples.fixture "/r"
                          (Examples.boot Examples.permissive)
               = Ret (Some Examples.root_dir)
                     (Examples.boot Examples.permissive)) by reflexivity.
  assert (H3 : In ("c"%string,
                   Examples.dir 0 [("d"%string, Examples.reg 300)])
                  [(".", Examples.dir 0 []); ("..", Examples.dir 0 []);
                   ("a", Examples.reg 100); ("b", Examples.reg 200);
                   ("c", Examples.dir 0 [("d", Examples.reg 300)])]%string)
    by (simpl; tauto).
  assert (H4 : is_dot_or_dotdot "c" = false) by reflexivity.
  assert (H5 : "c"%string <> EmptyString) by discriminate.
  assert (H6 : has_slash "c" = false) by reflexivity.
  split; [exact H1|]. split; [exact H2|]. split; [exact H3|].
  split; [exact H4|]. split; [exact H5|]. split; [exact H6|].
  exact (built_entry_resolves (mkStat 16877 0) _ _ _ _ _ _ _ []
                              (Examples.boot Examples.permissive)
                              H1 H2 H3 H4 H5 H6).
Defined.

(* ===================================================================== *)
(** * What a deletion touches *)
(* ===================================================================== *)

Lemma touches_only_weaken {A} (P Q : string -> Prop) s (o : outcome A) :
  (forall p, P p -> Q p) -> touches_only P s o -> touches_only Q s o.
Proof.
  unfold touches_only. intros HPQ H. destruct (final_state o); [|exact I].
  destruct H as (calls & E & Hc). exists calls. split; [exact E|].
  eapply Forall_impl; [|exact Hc]. intros c. apply HPQ.
Qed.

Lemma touches_only_same {A} P s (a : A) : touches_only P s (Ret a s).
Proof. exists []. rewrite app_nil_r. auto. Qed.

Lemma touches_only_bind {A B} P (m : M A) (k : A -> M B) s :
  touches_only P s (m s) ->
  (forall a s1, m s = Ret a s1 -> touches_only P s1 (k a s1)) ->
  touches_only P s (bind m k s).
Proof.
  unfold bind. intros Hm Hk. destruct (m s) as [a s1|c s1|w] eqn:E.
  - specialize (Hk a s1 eq_refl). unfold touches_only in *. simpl in Hm.
    destruct (final_state (k a s1)) as [s2|]; [|exact I].
    destruct Hm as (c1 & E1 & H1). destruct Hk as (c2 & E2 & H2).
    exists (c1 ++ c2). rewrite E2, E1, app_assoc. split; [reflexivity|].
    apply Forall_app. auto.
  - exact Hm.
  - exact I.
Qed.

Lemma touches_only_eprint P msg s : touches_only P s (eprint msg s).
Proof. exists []. simpl. rewrite app_nil_r. auto. Qed.

Lemma touches_only_err P eval msg s : touches_only P s (err eval msg s).
Proof. exists []. simpl. rewrite app_nil_r. auto. Qed.

Lemma touches_only_sys (P : string -> Prop) c s :
  P (call_path c) -> touches_only P s (sys c s).
Proof. intros H. exists [c]. simpl. auto. Qed.

Lemma touches_only_quiet {A} P (m : M A) s :
  (forall a s', m s = Ret a s' -> s' = s) ->
  (forall c s', m s <> Exit c s') ->
  touches_only P s (m s).
Proof.
  intros Hr He. destruct (m s) as [a s1|c s1|w] eqn:E.
  - rewrite (Hr a s1 eq_refl). apply touches_only_same.
  - exfalso. exact (He c s1 eq_refl).
  - exact I.
Qed.

Lemma add_sizes_quiet l : forall acc s,
  (forall a s', add_sizes acc l s = Ret a s' -> s' = s)
  /\ (forall c s', add_sizes acc l s <> Exit c s').
Proof.
  induction l as [|f l IH]; intros acc s; simpl.
  - split; [intros a s' H; inv_ret H; reflexivity | discriminate].
  - unfold bind, off_add. destruct (in_off_t (acc + size f)); simpl.
    + apply IH.
    + split; discriminate.
Qed.

Lemma touches_only_update_size P d s : touches_only P s (update_size d s).
Proof.
  apply touches_only_quiet.
  - intros a s' H. apply update_size_Ret in H.
    destruct H as (? & ? & ? & ? & ? & ? & _ & _ & E). exact E.
  - destruct d as [|n sz ty l self b]; [discriminate|].
    unfold update_size, bind. intros c s'.
    destruct (add_sizes self l s) as [a s1|c1 s1|w] eqn:E;
      try discriminate.
    exfalso. exact (proj2 (add_sizes_quiet l self s) _ _ E).
Qed.

Lemma touches_only_update_sizes_up P up : forall child s,
  touches_only P s (update_sizes_up child up s).
Proof.
  induction up as [|fr up IH]; intros child s; simpl.
  - apply touches_only_same.
  - apply touches_only_bind.
    + apply touches_only_quiet.
      * intros a s' H. apply update_size_frame_Ret in H. tauto.
      * unfold update_size_frame, bind. intros c s'.
        destruct (add_sizes _ _ s) as [a s1|c1 s1|w] eqn:E;
          try discriminate.
        exfalso. exact (proj2 (add_sizes_quiet _ _ s) _ _ E).
    + intros fr' s1 _. apply touches_only_bind; [apply IH|].
      intros rest s2 _. apply touches_only_same.
Qed.

Lemma touches_only_remove_plain (P : string -> Prop) f s :
  P (name f) -> touches_only P s (remove_plain f s).
Proof.
  intros Hf. unfold remove_plain. apply touches_only_bind.
  - apply touches_only_sys. exact Hf.
  - intros [e|] s1 _; [|apply touches_only_same].
    apply touches_only_bind; [apply touches_only_sys; exact Hf|].
    intros [e'|] s2 _; [|apply touches_only_same].
    apply touches_only_bind; [apply touches_only_err|].
    intros _ s3 _. apply touches_only_same.
Qed.

Lemma touches_only_children_loop (P : string -> Prop) remove l :
  Forall (fun c => forall s, touches_only P s (remove c s)) l ->
  forall result s, touches_only P s (children_loop remove l result s).
Proof.
  induction 1 as [|c nxt Hc _ IH]; intros result s; simpl.
  - apply touches_only_same.
  - apply touches_only_bind; [apply Hc|].
    intros [ok c'] s1 _. destruct ok; [apply IH|].
    apply touches_only_bind; [apply IH|].
    intros [r rest] s2 _. apply touches_only_same.
Qed.

Lemma remove_file_internal_touches f : forall s,
  touches_only (fun p => In p (paths_of f)) s (remove_file_internal f s).
Proof.
  induction f as [n sz ty | n sz ty subdirs self b IH] using file_nested_ind;
    intros s; simpl.
  - destruct (is_dir_bit ty); [exact I|].
    apply touches_only_remove_plain. simpl. auto.
  - destruct (is_dir_bit ty);
      [|apply touches_only_remove_plain; simpl; auto].
    apply touches_only_bind.
    + apply touches_only_children_loop.
      rewrite Forall_forall in *. intros c Hc s0.
      eapply touches_only_weaken; [|apply (IH c Hc)].
      intros p Hp. right. apply in_flat_map. exists c. auto.
    + intros [result subdirs'] s1 _. apply touches_only_bind.
      * destruct (negb result).
        -- apply touches_only_bind; [apply touches_only_eprint|].
           intros _ s2 _. apply touches_only_same.
        -- apply touches_only_bind;
             [apply touches_only_sys; simpl; auto|].
           intros [e|] s2 _; [|apply touches_only_same].
           apply touches_only_bind; [apply touches_only_err|].
           intros _ s3 _. apply touches_only_same.
      * intros result' s2 _. apply touches_only_bind;
          [apply touches_only_update_size|].
        intros d s3 _. apply touches_only_same.
Qed.

Lemma remove_file_touches f ctx s :
  touches_only (fun p => In p (paths_of f)) s (remove_file (f, ctx) s).
Proof.
  unfold remove_file. apply touches_only_bind.
  - apply remove_file_internal_touches.
  - intros [result f'] s1 _. destruct ctx as [|fr up].
    + apply touches_only_bind.
      * destruct result; [|apply touches_only_same].
        exists []. simpl. rewrite app_nil_r. auto.
      * intros _ s2 _. apply touches_only_same.
    + apply touches_only_bind; [apply touches_only_update_size|].
      intros d' s2 _. apply touches_only_bind;
        [apply touches_only_update_sizes_up|].
      intros up' s3 _. apply touches_only_same.
Qed.

(** X11.  A deletion stays inside the node it was asked to remove.
    Whether [remove_file] returns or the process exits in it, every
    [unlink] and [rmdir] it made was on the name of the node or of a node
    below it. *)
Theorem remove_file_stays_below f ctx s :
  touches_only (fun p => In p (paths_of f)) s (remove_file (f, ctx) s).
Proof. exact (remove_file_touches f ctx s). Qed.

(* ===================================================================== *)
(** * What a session touches *)
(* ===================================================================== *)

Lemma prefix_app a b : String.prefix a (a ++ b)%string = true.
Proof.
  induction a as [|x a IH]; simpl; [destruct b; reflexivity|].
  destruct (ascii_dec x x); [exact IH | congruence].
Qed.

Lemma prefix_trans a : forall b c,
  String.prefix a b = true -> String.prefix b c = true ->
  String.prefix a c = true.
Proof.
  induction a as [|x a IH]; intros b c Hab Hbc; [destruct c; reflexivity|].
  destruct b as [|y b]; [discriminate|]. simpl in Hab.
  destruct (ascii_dec x y); [subst y | discriminate].
  destruct c as [|z c]; [discriminate|]. simpl in Hbc. simpl.
  destruct (ascii_dec x z); [|discriminate]. eapply IH; eassumption.
Qed.

Lemma concat_path_prefix a b p :
  concat_path a b = Some p -> String.prefix a p = true.
Proof.
  unfold concat_path. destruct (last_char a) as [c|]; [|discriminate].
  destruct (Ascii.eqb c slash); intros H; inversion H; apply prefix_app.
Qed.

Lemma in_paths_root_of ctx : forall f p,
  In p (paths_of (root_of f ctx))
  <-> In p (paths_of f) \/ In p (ctx_paths ctx).
Proof.
  induction ctx as [|fr up IH]; intros f p; simpl; [tauto|].
  rewrite IH. simpl. rewrite flat_map_app. simpl.
  rewrite !in_app_iff. tauto.
Qed.

(* --------------------------------------------------------------------- *)
(** ** The builder makes no call and names everything below its path *)

Lemma touches_only_off_add P a b s : touches_only P s (off_add a b s).
Proof.
  unfold off_add. destruct (in_off_t (a + b)); [apply touches_only_same|].
  exact I.
Qed.

Lemma readdir_loop_touches P build path ents :
  Forall (fun p => forall path s, touches_only P s (build (snd p) path s))
         ents ->
  forall subdirs sz s,
    touches_only P s (readdir_loop build path ents subdirs sz s).
Proof.
  induction 1 as [|[d_name child] rest Hc _ IH]; intros subdirs sz s;
    simpl.
  - apply touches_only_same.
  - destruct (is_dot_or_dotdot d_name); [apply IH|].
    destruct (concat_path path d_name) as [subpath|]; [|exact I].
    apply touches_only_bind; [apply Hc|].
    intros [nf|] s1 _.
    + apply touches_only_bind; [apply touches_only_off_add|].
      intros sz' s2 _. apply IH.
    + apply touches_only_bind; [apply touches_only_eprint|].
      intros _ s2 _. apply IH.
Qed.

Lemma build_tree_touches P e : forall path s,
  touches_only P s (build_tree e path s).
Proof.
  induction e as [l | l ents IH] using fs_entry_nested_ind;
    intros path s; simpl; destruct l as [errno|st].
  - apply touches_only_bind; [apply touches_only_err|].
    intros _ s1 _. apply touches_only_same.
  - destruct (S_ISDIR (st_mode st)); apply touches_only_same.
  - apply touches_only_bind; [apply touches_only_err|].
    intros _ s1 _. apply touches_only_same.
  - destruct (S_ISDIR (st_mode st)); [|apply touches_only_same].
    apply touches_only_bind; [apply readdir_loop_touches; exact IH|].
    intros [subdirs sz] s1 _. apply touches_only_same.
Qed.

Lemma under_trans a b t :
  String.prefix a b = true -> under b t -> under a t.
Proof.
  intros Hab. unfold under. apply Forall_impl. intros n Hn.
  eapply prefix_trans; eassumption.
Qed.

Lemma prefix_refl a : String.prefix a a = true.
Proof.
  induction a as [|x a IH]; [reflexivity|]. simpl.
  destruct (ascii_dec x x); [exact IH | congruence].
Qed.

Lemma readdir_loop_under build path ents :
  Forall (fun p => forall path s t s',
              build (snd p) path s = Ret (Some t) s' -> under path t) ents ->
  forall subdirs sz s subdirs' sz' s',
    Forall (under path) subdirs ->
    readdir_loop build path ents subdirs sz s = Ret (subdirs', sz') s' ->
    Forall (under path) subdirs'.
Proof.
  induction 1 as [|[d_name child] rest Hc _ IH];
    intros subdirs sz s subdirs' sz' s' Hok H; simpl in H.
  - inv_ret H. inversion H; subst. exact Hok.
  - destruct (is_dot_or_dotdot d_name); [eapply IH; eassumption|].
    destruct (concat_path path d_name) as [subpath|] eqn:Ec;
      [|discriminate].
    inv_bind H. destruct a as [nf|].
    + apply Hc in Hrun. inv_bind H. eapply IH; [|exact H].
      constructor; [|exact Hok].
      eapply under_trans; [|exact Hrun].
      eapply concat_path_prefix. exact Ec.
    + inv_bind H. eapply IH; eassumption.
Qed.

Lemma build_tree_under e : forall path s t s',
  build_tree e path s = Ret (Some t) s' -> under path t.
Proof.
  induction e as [l | l ents IH] using fs_entry_nested_ind;
    intros path s t s' H; simpl in H; destruct l as [errno|st].
  - inv_bind H. exfalso. eapply err_not_Ret. eassumption.
  - destruct (S_ISDIR (st_mode st)); apply ret_Ret in H;
      destruct H as [E _]; inversion E; subst t;
      repeat constructor; apply prefix_refl.
  - inv_bind H. exfalso. eapply err_not_Ret. eassumption.
  - destruct (S_ISDIR (st_mode st)).
    + inv_bind H. destruct a as [subdirs sz].
      apply ret_Ret in H. destruct H as [E _]. inversion E; subst t.
      eapply readdir_loop_under in Hrun; [|exact IH|constructor].
      unfold under. simpl. constructor; [apply prefix_refl|].
      apply Forall_forall. intros n Hn. apply in_flat_map in Hn.
      destruct Hn as (c & Hc & Hn). rewrite Forall_forall in Hrun.
      specialize (Hrun c Hc). unfold under in Hrun.
      rewrite Forall_forall in Hrun. exact (Hrun n Hn).
    + apply ret_Ret in H. destruct H as [E _]. inversion E; subst t.
      repeat constructor. apply prefix_refl.
Qed.

(* --------------------------------------------------------------------- *)
(** ** The loop stays inside the tree *)

Lemma sorted_subdirs_quiet d s :
  (forall a s', sorted_subdirs d s = Ret a s' -> s' = s)
  /\ (forall c s', sorted_subdirs d s <> Exit c s').
Proof.
  destruct d as [|n sz ty l self [[|]|]]; simpl;
    try (split; discriminate).
  - split; [intros a s' H; inv_ret H; reflexivity | discriminate].
  - destruct (do_merge_sort l (List.length l)); split; try discriminate.
    intros a s' H. inv_ret H. reflexivity.
Qed.

Lemma print_node_quiet c s :
  (forall a s', print_node c s = Ret a s' -> s' = s)
  /\ (forall e s', print_node c s <> Exit e s').
Proof.
  unfold print_node. destruct c as [f ctx].
  destruct (type f =? TYPE_DIR).
  - unfold bind. destruct (sorted_subdirs_quiet f s) as [Hr He].
    destruct (sorted_subdirs f s) as [[l d] s1|e s1|w] eqn:E.
    + split; [|discriminate]. intros a s' H. inv_ret H.
      exact (Hr _ _ eq_refl).
    + exfalso. exact (He _ _ eq_refl).
    + split; discriminate.
  - split; [intros a s' H; inv_ret H; reflexivity | discriminate].
Qed.

Lemma print_node_paths c s c' s' :
  print_node c s = Ret c' s' ->
  forall p, In p (tree_paths c') -> In p (tree_paths c).
Proof.
  unfold print_node, tree_paths. destruct c as [f ctx].
  destruct (type f =? TYPE_DIR).
  - intros H. inv_bind H. destruct a as [l d]. inv_ret H.
    apply sorted_subdirs_Ret in Hrun.
    destruct Hrun as (n & sz & ty & subdirs & self & b & E & E' & P & _).
    subst. simpl. intros p. rewrite !in_paths_root_of. simpl.
    intros [[Hn | Hl] | Hc]; auto. left. right.
    eapply Permutation_in; [|exact Hl].
    apply Permutation_flat_map. symmetry. exact P.
  - intros H. inv_ret H. auto.
Qed.

Lemma next_entity_quiet c name s :
  (forall a s', next_entity c name s = Ret a s' -> s' = s)
  /\ (forall e s', next_entity c name s <> Exit e s').
Proof.
  unfold next_entity. destruct (String.eqb ".." name).
  - split; [intros a s' H; inv_ret H; reflexivity | discriminate].
  - destruct c as [f ctx]. destruct (type f =? TYPE_DIR).
    + destruct f; [split; discriminate|].
      destruct (find_child _ _ _) as [[[? ?] ?]|];
        (split; [intros a s' H; inv_ret H; reflexivity | discriminate]).
    + split; [intros a s' H; inv_ret H; reflexivity | discriminate].
Qed.

Lemma update_sizes_up_paths up : forall child s up' s',
  update_sizes_up child up s = Ret up' s' -> ctx_paths up' = ctx_paths up.
Proof.
  induction up as [|fr up IH]; intros child s up' s' H; simpl in H.
  - inv_ret H. reflexivity.
  - inv_bind H. apply update_size_frame_Ret in Hrun. destruct Hrun; subst.
    inv_bind H. inv_ret H. apply IH in Hrun. simpl. rewrite Hrun.
    reflexivity.
Qed.

Lemma remove_file_paths f ctx s r c' s' :
  remove_file (f, ctx) s = Ret (r, Some c') s' ->
  forall p, In p (tree_paths c') -> In p (tree_paths (f, ctx)).
Proof.
  unfold remove_file, tree_paths. intros H. inv_bind H.
  destruct a as [result f'].
  apply remove_file_internal_result in Hrun. subst result.
  destruct ctx as [|fr up]; [inv_bind H; inv_ret H; discriminate|].
  inv_bind H. inv_bind H. apply ret_Ret in H. destruct H as [E _].
  inversion E; subst. clear E. simpl fst. simpl snd.
  apply update_size_Ret in Hrun.
  destruct Hrun as (n' & sz' & ty' & l & self' & b' & E & E' & _). subst a.
  inversion E; subst. apply update_sizes_up_paths in Hrun0.
  intros p. change (root_of f (fr :: up)) with (root_of (plug fr f) up).
  rewrite !in_paths_root_of, Hrun0. simpl.
  rewrite !flat_map_app. simpl. rewrite !in_app_iff. tauto.
Qed.

Lemma in_paths_focus f ctx p :
  In p (paths_of f) -> In p (tree_paths (f, ctx)).
Proof. unfold tree_paths. simpl. rewrite in_paths_root_of. auto. Qed.

Lemma process_rm_touches cur line s :
  touches_only (fun p => In p (tree_paths cur)) s (process_rm cur line s)
  /\ (forall c' s', process_rm cur line s = Ret (Some c') s' ->
                    forall p, In p (tree_paths c') -> In p (tree_paths cur)).
Proof.
  unfold process_rm.
  assert (Ht : (forall t s1, to_remove cur line s = Ret (Some t) s1 ->
                             s1 = s /\ tree_paths t = tree_paths cur)
               /\ (forall t s1, to_remove cur line s = Ret t s1 -> s1 = s)
               /\ (forall e s1, to_remove cur line s <> Exit e s1)).
  { unfold to_remove. destruct line as [l|].
    - destruct (is_empty_line (Some l)).
      + split; [|split]; [| |discriminate].
        * intros t s1 H. apply ret_Ret in H. destruct H as [E Es].
          inversion E; subst. auto.
        * intros t s1 H. apply ret_Ret in H. destruct H as [E Es]. auto.
      + destruct (next_entity_quiet cur l s) as [Hq He].
        split; [|split]; [|exact Hq|exact He].
        intros t s1 H. split; [exact (Hq _ _ H)|].
        apply next_entity_same_tree in H. unfold tree_paths.
        destruct H as [E _]. rewrite E. reflexivity.
    - split; [|split]; [| |discriminate].
      + intros t s1 H. apply ret_Ret in H. destruct H as [E Es].
        inversion E; subst. auto.
      + intros t s1 H. apply ret_Ret in H. destruct H as [E Es]. auto. }
  destruct Ht as (Hsome & Hq & He). split.
  - apply touches_only_bind.
    + apply touches_only_quiet; assumption.
    + intros [[t tctx]|] s1 Hrun; [|exact I].
      destruct (Hsome _ _ Hrun) as [Es Et]. subst s1.
      apply touches_only_bind.
      * eapply touches_only_weaken; [|apply remove_file_touches].
        intros p Hp. rewrite <- Et. apply in_paths_focus. exact Hp.
      * intros [r [c|]] s2 _; [apply touches_only_same|].
        apply touches_only_bind; [apply touches_only_eprint|].
        intros _ s3 _. apply touches_only_same.
  - intros c' s' H. inv_bind H. destruct a as [[t tctx]|]; [|discriminate].
    destruct (Hsome _ _ Hrun) as [Es Et]. subst s0.
    inv_bind H. destruct a as [r [c|]].
    + apply ret_Ret in H. destruct H as [E _]. inversion E; subst c'.
      rewrite <- Et. eapply remove_file_paths. eassumption.
    + inv_bind H. apply ret_Ret in H. destruct H as [E _]. discriminate E.
Qed.

Lemma dispatch_touches cur line s :
  touches_only (fun p => In p (tree_paths cur)) s (dispatch cur line s)
  /\ (forall c' s', dispatch cur line s = Ret (Some c') s' ->
                    forall p, In p (tree_paths c') -> In p (tree_paths cur)).
Proof.
  unfold dispatch. destruct (begins_with_slash line).
  - unfold process_command. destruct (strsep line) as [cmd rest].
    destruct (String.eqb cmd "/rm"); [apply process_rm_touches|].
    destruct (String.eqb cmd "/help").
    + split.
      * apply touches_only_bind.
        -- unfold process_help. destruct (is_empty_line rest);
             [apply touches_only_same|].
           destruct rest; [apply touches_only_eprint|apply touches_only_same].
        -- intros _ s1 _. apply touches_only_same.
      * intros c' s' H. inv_bind H. apply ret_Ret in H.
        destruct H as [E _]. inversion E; subst. auto.
    + split.
      * apply touches_only_bind; [apply touches_only_eprint|].
        intros _ s1 _. apply touches_only_same.
      * intros c' s' H. inv_bind H. apply ret_Ret in H.
        destruct H as [E _]. inversion E; subst. auto.
  - destruct (next_entity_quiet cur (extract_name line) s) as [Hq He].
    split.
    + apply touches_only_bind; [apply touches_only_quiet; assumption|].
      intros [n|] s1 _; [apply touches_only_same|].
      apply touches_only_bind; [apply touches_only_eprint|].
      intros _ s2 _. apply touches_only_same.
    + intros c' s' H. inv_bind H. destruct a as [n|].
      * apply ret_Ret in H. destruct H as [E _]. inversion E; subst c'.
        apply next_entity_same_tree in Hrun. destruct Hrun as [Et _].
        unfold tree_paths. rewrite Et. auto.
      * inv_bind H. apply ret_Ret in H. destruct H as [E _].
        inversion E; subst. auto.
Qed.

Lemma main_loop_touches input : forall cur s,
  touches_only (fun p => In p (tree_paths cur)) s (main_loop cur input s).
Proof.
  induction input as [|line rest IH]; intros cur s; simpl.
  - apply touches_only_bind.
    + apply touches_only_quiet; apply print_node_quiet.
    + intros cur' s1 _. apply touches_only_same.
  - destruct (print_node_quiet cur s) as [Hq He].
    apply touches_only_bind; [apply touches_only_quiet; assumption|].
    intros cur' s1 Hp. pose proof (print_node_paths _ _ _ _ Hp) as Hin.
    destruct (dispatch_touches cur' line s1) as [Hd Hsub].
    apply touches_only_bind.
    + eapply touches_only_weaken; [|exact Hd]. exact Hin.
    + intros [c|] s2 Hrun; [|apply touches_only_same].
      eapply touches_only_weaken; [|apply IH].
      intros p Hp'. apply Hin. eapply Hsub; eassumption.
Qed.

Lemma main_touches argc open_dot base_path disk input s :
  touches_only (fun p => String.prefix base_path p = true) s
               (main argc open_dot base_path disk input s).
Proof.
  unfold main. destruct ((argc =? 1) || (argc =? 2))%bool.
  - destruct open_dot as [errno|].
    + apply touches_only_bind; [apply touches_only_err|].
      intros _ s1 _. apply touches_only_same.
    + apply touches_only_bind; [apply build_tree_touches|].
      intros [t|] s1 Hb.
      * apply build_tree_under in Hb.
        apply touches_only_bind.
        -- eapply touches_only_weaken; [|apply main_loop_touches].
           intros p Hp. unfold tree_paths in Hp. simpl in Hp.
           unfold under in Hb. rewrite Forall_forall in Hb. auto.
        -- intros code s2 _. apply touches_only_bind.
           ++ unfold deallocate_files. destruct (st_tree_freed s2);
                [exact I | apply touches_only_same].
           ++ intros _ s3 _. apply touches_only_same.
      * apply touches_only_bind; [apply touches_only_eprint|].
        intros _ s2 _. apply touches_only_same.
  - apply touches_only_bind; [apply touches_only_eprint|].
    intros _ s1 _. apply touches_only_same.
Qed.

(** X12.  A session deletes only inside the tree it is in.  Whether the
    loop of [main] returns or the process exits in it, every [unlink] and
    [rmdir] made was on the name of a node of the tree the loop started
    in. *)
Theorem session_stays_in_tree cur input s :
  touches_only (fun p => In p (tree_paths cur)) s (main_loop cur input s).
Proof. exact (main_loop_touches input cur s). Qed.

Lemma session_under_base disk base_path s0 t s input :
  build_tree disk base_path s0 = Ret (Some t) s ->
  touches_only (fun p => String.prefix base_path p = true) s
               (main_loop (t, []) input s).
Proof.
  intros Hb. apply build_tree_under in Hb.
  eapply touches_only_weaken; [|apply main_loop_touches].
  intros p Hp. unfold tree_paths in Hp. simpl in Hp.
  unfold under in Hb. rewrite Forall_forall in Hb. auto.
Qed.

(** X13.  Nothing outside the starting path is removed.  In the session on
    the tree built from [base_path], whether the loop returns or the
    process exits in it, every path passed to [unlink] or [rmdir] begins
    with [base_path]: the names in the tree are built by joining entry
    names below it, and the deletions stay in the tree. *)
Theorem session_removes_only_below_base disk base_path s0 t s input :
  build_tree disk base_path s0 = Ret (Some t) s ->
  touches_only (fun p => String.prefix base_path p = true) s
               (main_loop (t, []) input s).
Proof. exact (session_under_base disk base_path s0 t s input). Qed.

Lemma session_removes_only_below_base_witness :
  build_tree Examples.fixture "/r" (Examples.boot Examples.permissive)
  = Ret (Some Examples.root_dir) (Examples.boot Examples.permissive)
  /\ touches_only (fun p => String.prefix "/r" p = true)
                  (Examples.boot Examples.permissive)
                  (main_loop (Examples.root_dir, []) ["c"; "/rm"; "/rm"]%string
                             (Examples.boot Examples.permissive)).
Proof.
  assert (H : build_tree Examples.fixture "/r"
                         (Examples.boot Examples.permissive)
              = Ret (Some Examples.root_dir)
                    (Examples.boot Examples.permissive)) by reflexivity.
  split; [exact H|].
  exact (session_removes_only_below_base _ _ _ _ _ _ H).
Defined.

(* ===================================================================== *)
(** * Display and navigation do not fault on a tree that was built *)
(* ===================================================================== *)

Lemma land_S_IFMT_low mode : Z.land mode S_IFMT mod 4096 = 0.
Proof.
  change 4096 with (2 ^ 12). rewrite <- Z.land_ones by lia.
  rewrite <- Z.land_assoc. change (Z.land S_IFMT (Z.ones 12)) with 0.
  apply Z.land_0_r.
Qed.

Lemma not_S_ISDIR_type mode :
  S_ISDIR mode = false ->
  Z.shiftr (Z.land mode S_IFMT) FILE_TYPE_OFFSET <> TYPE_DIR.
Proof.
  unfold S_ISDIR. intros H. apply Z.eqb_neq in H. intros E. apply H.
  unfold FILE_TYPE_OFFSET in E. rewrite Z.shiftr_div_pow2 in E by lia.
  change (2 ^ 12) with 4096 in E. change TYPE_DIR with 4 in E.
  pose proof (land_S_IFMT_low mode) as Hlow.
  pose proof (Z.div_mod (Z.land mode S_IFMT) 4096 ltac:(lia)) as Hdm.
  unfold S_IFDIR. lia.
Qed.

Lemma root_of_shape_ok ctx : forall f,
  shape_ok (root_of f ctx) = shape_ok f && frames_shape_ok ctx.
Proof.
  induction ctx as [|fr up IH]; intros f; simpl.
  - rewrite andb_true_r. reflexivity.
  - rewrite IH. simpl. rewrite forallb_app. simpl.
    destruct (shape_ok f), (forallb shape_ok (fr_before fr)),
      (forallb shape_ok (fr_after fr)), (frames_shape_ok up),
      (implb _ _); reflexivity.
Qed.

Lemma readdir_loop_shape_ok build path ents :
  Forall (fun p => forall path s t s',
              build (snd p) path s = Ret (Some t) s' -> shape_ok t = true)
         ents ->
  forall subdirs sz s subdirs' sz' s',
    forallb shape_ok subdirs = true ->
    readdir_loop build path ents subdirs sz s = Ret (subdirs', sz') s' ->
    forallb shape_ok subdirs' = true.
Proof.
  induction 1 as [|[d_name child] rest Hc _ IH];
    intros subdirs sz s subdirs' sz' s' Hok H; simpl in H.
  - inv_ret H. inversion H; subst. exact Hok.
  - destruct (is_dot_or_dotdot d_name); [eapply IH; eassumption|].
    destruct (concat_path path d_name) as [subpath|]; [|discriminate].
    inv_bind H. destruct a as [nf|].
    + apply Hc in Hrun. inv_bind H. eapply IH; [|exact H].
      simpl. rewrite Hrun, Hok. reflexivity.
    + inv_bind H. eapply IH; eassumption.
Qed.

Lemma build_tree_shape_ok e : forall path s t s',
  build_tree e path s = Ret (Some t) s' -> shape_ok t = true.
Proof.
  induction e as [l | l ents IH] using fs_entry_nested_ind;
    intros path s t s' H; simpl in H; destruct l as [errno|st].
  - inv_bind H. exfalso. eapply err_not_Ret. eassumption.
  - destruct (S_ISDIR (st_mode st)) eqn:Ed; apply ret_Ret in H;
      destruct H as [E _]; inversion E; subst t; simpl.
    + rewrite (S_ISDIR_type _ Ed). reflexivity.
    + apply negb_true_iff, Z.eqb_neq, not_S_ISDIR_type. exact Ed.
  - inv_bind H. exfalso. eapply err_not_Ret. eassumption.
  - destruct (S_ISDIR (st_mode st)) eqn:Ed.
    + inv_bind H. destruct a as [subdirs sz].
      apply ret_Ret in H. destruct H as [E _]. inversion E; subst t.
      eapply readdir_loop_shape_ok in Hrun; [|exact IH|reflexivity].
      simpl. rewrite Hrun, implb_true_r. reflexivity.
    + apply ret_Ret in H. destruct H as [E _]. inversion E; subst t.
      simpl. apply negb_true_iff, Z.eqb_neq, not_S_ISDIR_type. exact Ed.
Qed.

Lemma frames_shape_ok_siblings ctx :
  frames_shape_ok ctx = true ->
  Forall (fun fr => forallb shape_ok (fr_before fr) = true
                    /\ forallb shape_ok (fr_after fr) = true) ctx.
Proof.
  induction ctx as [|fr up IH]; intros H; constructor; simpl in H;
    repeat (apply andb_prop in H; destruct H as [H ?]); auto.
Qed.

Lemma update_sizes_up_shape_ok up : forall child s up' s',
  update_sizes_up child up s = Ret up' s' ->
  Forall (fun fr => forallb shape_ok (fr_before fr) = true
                    /\ forallb shape_ok (fr_after fr) = true) up ->
  frames_shape_ok up' = true.
Proof.
  induction up as [|fr up IH]; intros child s up' s' H Hsib; simpl in H.
  - inv_ret H. reflexivity.
  - inversion Hsib as [|? ? [Hb Ha] Hsib']; subst.
    inv_bind H. apply update_size_frame_Ret in Hrun. destruct Hrun; subst.
    inv_bind H. inv_ret H. simpl. rewrite Hb, Ha, implb_true_r. simpl.
    eapply IH; eassumption.
Qed.

Lemma remove_file_shape_ok f ctx s r d up s' :
  shape_ok (root_of f ctx) = true ->
  remove_file (f, ctx) s = Ret (r, Some (d, up)) s' ->
  shape_ok (root_of d up) = true.
Proof.
  intros Hok H. rewrite root_of_shape_ok in Hok. apply andb_prop in Hok.
  destruct Hok as [_ Hctx]. unfold remove_file in H.
  inv_bind H. destruct a as [result f'].
  apply remove_file_internal_result in Hrun. subst result.
  destruct ctx as [|fr rest]; [inv_bind H; inv_ret H; discriminate|].
  inv_bind H. inv_bind H. apply ret_Ret in H. destruct H as [E _].
  inversion E; subst. clear E.
  pose proof (frames_shape_ok_siblings _ Hctx) as Hsib.
  inversion Hsib as [|? ? [Hb Ha] Hsib']; subst.
  rewrite root_of_shape_ok.
  rewrite (update_sizes_up_shape_ok _ _ _ _ _ Hrun0 Hsib'), andb_true_r.
  apply update_size_Ret in Hrun.
  destruct Hrun as (n' & sz' & ty' & l & self' & b' & E & E' & _). subst d.
  inversion E; subst. simpl.
  rewrite forallb_app, Hb, Ha, implb_true_r. reflexivity.
Qed.

Lemma print_node_shape_ok c s c' s' :
  print_node c s = Ret c' s' ->
  shape_ok (root_of (fst c) (snd c)) = true ->
  shape_ok (root_of (fst c') (snd c')) = true.
Proof.
  unfold print_node. destruct c as [f ctx].
  destruct (type f =? TYPE_DIR).
  - intros H Hok. inv_bind H. destruct a as [l d]. inv_ret H.
    apply sorted_subdirs_Ret in Hrun.
    destruct Hrun as (n & sz & ty & subdirs & self & b & E & E' & P & _).
    subst. simpl in *. rewrite root_of_shape_ok in *. simpl in *.
    rewrite <- (forallb_perm _ _ _ P).
    rewrite implb_true_r in *. exact Hok.
  - intros H Hok. inv_ret H. exact Hok.
Qed.

Lemma dispatch_shape_ok cur line s c' s' :
  dispatch cur line s = Ret (Some c') s' ->
  shape_ok (root_of (fst cur) (snd cur)) = true ->
  shape_ok (root_of (fst c') (snd c')) = true.
Proof.
  unfold dispatch. intros H Hok.
  destruct (begins_with_slash line).
  - unfold process_command in H. destruct (strsep line) as [cmd rest].
    destruct (String.eqb cmd "/rm").
    + unfold process_rm, to_remove in H. inv_bind H.
      destruct a as [[t tctx]|]; [|discriminate].
      assert (Ht : shape_ok (root_of t tctx) = true).
      { destruct rest as [l|].
        - destruct (is_empty_line (Some l)).
          + apply ret_Ret in Hrun. destruct Hrun as [E _].
            inversion E; subst cur. exact Hok.
          + apply next_entity_same_tree in Hrun. destruct Hrun as [E _].
            simpl in E. rewrite E. exact Hok.
        - apply ret_Ret in Hrun. destruct Hrun as [E _].
          inversion E; subst cur. exact Hok. }
      inv_bind H. destruct a as [r [[d up]|]].
      * apply ret_Ret in H. destruct H as [E _]. inversion E; subst c'.
        simpl. eapply remove_file_shape_ok; eassumption.
      * inv_bind H. apply ret_Ret in H. destruct H as [E _]. discriminate E.
    + destruct (String.eqb cmd "/help");
        inv_bind H; apply ret_Ret in H; destruct H as [E _];
        inversion E; subst c'; exact Hok.
  - inv_bind H. destruct a as [n|].
    + apply ret_Ret in H. destruct H as [E _]. inversion E; subst c'.
      apply next_entity_same_tree in Hrun. destruct Hrun as [E' _].
      rewrite E'. exact Hok.
    + inv_bind H. apply ret_Ret in H. destruct H as [E _].
      inversion E; subst c'. exact Hok.
Qed.

Lemma displays_shape_ok cur input s d :
  displays cur input s d ->
  shape_ok (root_of (fst cur) (snd cur)) = true ->
  shape_ok (root_of (fst d) (snd d)) = true.
Proof.
  induction 1 as [cur input s d s' Hp
                 | cur line rest s cur' s0 c s1 d Hp Hd _ IH]; intros Hok.
  - exact (print_node_shape_ok _ _ _ _ Hp Hok).
  - apply IH. eapply dispatch_shape_ok; [exact Hd|].
    exact (print_node_shape_ok _ _ _ _ Hp Hok).
Qed.

Lemma shape_ok_focus f ctx :
  shape_ok (root_of f ctx) = true ->
  type f = TYPE_DIR ->
  exists n sz subdirs self b,
    f = Directory n sz TYPE_DIR subdirs self (Some b).
Proof.
  rewrite root_of_shape_ok. intros H Ht. apply andb_prop in H.
  destruct H as [H _]. destruct f as [n sz ty | n sz ty subdirs self b];
    simpl in *; subst ty.
  - discriminate.
  - apply andb_prop in H. destruct H as [H _]. simpl in H.
    destruct b as [b|]; [|discriminate]. eauto 10.
Qed.

Lemma print_node_returns f ctx s :
  shape_ok (root_of f ctx) = true ->
  exists c', print_node (f, ctx) s = Ret c' s.
Proof.
  intros Hok. unfold print_node.
  destruct (type f =? TYPE_DIR) eqn:Et; [|eexists; reflexivity].
  apply Z.eqb_eq in Et.
  destruct (shape_ok_focus _ _ Hok Et) as (n & sz & subdirs & self & b & E).
  subst f. destruct b.
  - eexists. reflexivity.
  - destruct (sorted_subdirs_dirty n sz TYPE_DIR subdirs self s)
      as (l & El & _).
    unfold bind. rewrite El. eexists. reflexivity.
Qed.

Lemma next_entity_returns f ctx name s :
  shape_ok (root_of f ctx) = true ->
  exists r, next_entity (f, ctx) name s = Ret r s.
Proof.
  intros Hok. unfold next_entity.
  destruct (String.eqb ".." name); [eexists; reflexivity|].
  destruct (type f =? TYPE_DIR) eqn:Et; [|eexists; reflexivity].
  apply Z.eqb_eq in Et.
  destruct (shape_ok_focus _ _ Hok Et) as (n & sz & subdirs & self & b & E).
  subst f. destruct (find_child name [] subdirs) as [[[? ?] ?]|];
    eexists; reflexivity.
Qed.

Lemma round_without_rm_returns f ctx line s :
  shape_ok (root_of f ctx) = true ->
  String.eqb (fst (strsep line)) "/rm" = false ->
  exists c s', dispatch (f, ctx) line s = Ret (Some c) s'.
Proof.
  intros Hok Hrm. unfold dispatch.
  destruct (begins_with_slash line).
  - unfold process_command. destruct (strsep line) as [cmd rest].
    simpl in Hrm. rewrite Hrm.
    destruct (String.eqb cmd "/help").
    + unfold process_help. destruct (is_empty_line rest);
        [eexists; eexists; reflexivity|].
      destruct rest; eexists; eexists; reflexivity.
    + eexists. eexists. reflexivity.
  - destruct (next_entity_returns f ctx (extract_name line) s Hok)
      as [r Hr].
    unfold bind. rewrite Hr. destruct r; eexists; eexists; reflexivity.
Qed.

(** From a cursor into a well-shaped tree, the loop of [main] run on lines
    none of which has [/rm] as its first token returns 0: every display
    and every round returns. *)
Lemma navigation_loop_returns lines : forall f ctx s,
  shape_ok (root_of f ctx) = true ->
  Forall (fun line => String.eqb (fst (strsep line)) "/rm" = false) lines ->
  exists s', main_loop (f, ctx) lines s = Ret 0 s'.
Proof.
  induction lines as [|line rest IH]; intros f ctx s Hok Hall.
  - destruct (print_node_returns f ctx s Hok) as [c' Hp].
    simpl. rewrite (bind_eq_Ret _ _ _ _ _ Hp). eexists. reflexivity.
  - inversion Hall as [|? ? Hline Hrest]; subst.
    destruct (print_node_returns f ctx s Hok) as [[d up] Hp].
    pose proof (print_node_shape_ok _ _ _ _ Hp Hok) as Hok'. simpl in Hok'.
    destruct (round_without_rm_returns d up line s Hok' Hline)
      as ([f2 ctx2] & s2 & Hd).
    pose proof (dispatch_shape_ok _ _ _ _ _ Hd Hok') as Hok2.
    simpl in Hok2.
    destruct (IH f2 ctx2 s2 Hok2 Hrest) as [s' Hl].
    exists s'. rewrite <- Hl.
    exact (main_loop_step _ _ _ _ _ _ _ _ Hp Hd).
Qed.

(** X14.  Display and navigation do not fault.  On a tree that
    [build_tree] returned, the loop of [main] run on lines none of which
    has [/rm] as its first token gets through every display and every
    round and returns 0 at the end of input.  The same holds from the
    cursor any round of a session on that tree has returned, a round of
    [/rm] included: the next display returns on it, and so does the rest of
    the loop on such lines, whatever was deleted before. *)
Theorem session_navigation_returns e path s0 t s1 :
  build_tree e path s0 = Ret (Some t) s1 ->
  (forall lines s,
      Forall (fun line => String.eqb (fst (strsep line)) "/rm" = false)
             lines ->
      exists s', main_loop (t, []) lines s = Ret 0 s')
  /\ (forall input d line c s s',
         displays (t, []) input s1 d ->
         dispatch d line s = Ret (Some c) s' ->
         (forall s2, exists c', print_node c s2 = Ret c' s2)
         /\ (forall lines s2,
                Forall (fun line =>
                          String.eqb (fst (strsep line)) "/rm" = false)
                       lines ->
                exists s3, main_loop c lines s2 = Ret 0 s3)).
Proof.
  intros Hb. pose proof (build_tree_shape_ok _ _ _ _ _ Hb) as Ht.
  split.
  - intros lines s Hall. apply navigation_loop_returns; assumption.
  - intros input d line c s s' Hd Hc.
    assert (Hok : shape_ok (root_of (fst c) (snd c)) = true).
    { eapply dispatch_shape_ok; [exact Hc|].
      exact (displays_shape_ok _ _ _ _ Hd Ht). }
    destruct c as [f ctx]. simpl in Hok. split.
    + intros s2. apply print_node_returns. exact Hok.
    + intros lines s2 Hall. apply navigation_loop_returns; assumption.
Qed.

Lemma session_navigation_returns_witness :
  build_tree Examples.fixture "/r" (Examples.boot Examples.permissive)
  = Ret (Some Examples.root_dir) (Examples.boot Examples.permissive)
  /\ (forall lines s,
         Forall (fun line => String.eqb (fst (strsep line)) "/rm" = false)
                lines ->
         exists s', main_loop (Examples.root_dir, []) lines s = Ret 0 s')
  /\ (forall input d line c s s',
         displays (Examples.root_dir, []) input
                  (Examples.boot Examples.permissive) d ->
         dispatch d line s = Ret (Some c) s' ->
         (forall s2, exists c', print_node c s2 = Ret c' s2)
         /\ (forall lines s2,
                Forall (fun line =>
                          String.eqb (fst (strsep line)) "/rm" = false)
                       lines ->
                exists s3, main_loop c lines s2 = Ret 0 s3)).
Proof.
  assert (H : build_tree Examples.fixture "/r"
                         (Examples.boot Examples.permissive)
              = Ret (Some Examples.root_dir)
                    (Examples.boot Examples.permissive)) by reflexivity.
  split; [exact H|].
  exact (session_navigation_returns _ _ _ _ _ H).
Defined.

(* ===================================================================== *)
(** * More on the deletion engine *)
(* ===================================================================== *)

Lemma covers_refl s : covers [] s s.
Proof. exists []. rewrite app_nil_r. split; [reflexivity|]. intros x []. Qed.

Lemma covers_trans l1 l2 s1 s2 s3 :
  covers l1 s1 s2 -> covers l2 s2 s3 -> covers (l1 ++ l2) s1 s3.
Proof.
  intros (c1 & E1 & H1) (c2 & E2 & H2). exists (c1 ++ c2).
  rewrite E2, E1, app_assoc. split; [reflexivity|].
  rewrite map_app. intros x Hx. apply in_app_iff.
  apply in_app_iff in Hx. destruct Hx; [left; apply H1 | right; apply H2];
    assumption.
Qed.

Lemma covers_incl l l' s s' : incl l' l -> covers l s s' -> covers l' s s'.
Proof.
  intros Hi (c & E & H). exists c. split; [exact E|].
  intros x Hx. apply H, Hi, Hx.
Qed.

Lemma sys_covers c s r s' :
  sys c s = Ret r s' -> covers [call_path c] s s'.
Proof.
  unfold sys. intros H. inversion H; subst. exists [c]. simpl.
  split; [reflexivity|]. intros x Hx. exact Hx.
Qed.

Lemma remove_plain_covers f s r f' s' :
  remove_plain f s = Ret (r, f') s' -> covers [name f] s s'.
Proof.
  unfold remove_plain. intros H. inv_bind H.
  apply sys_covers in Hrun. simpl in Hrun. destruct a as [e|].
  - inv_bind H. apply sys_covers in Hrun0. simpl in Hrun0.
    destruct a as [e'|].
    + inv_bind H. exfalso. eapply err_not_Ret. eassumption.
    + inv_ret H. eapply covers_incl; [|eapply covers_trans; eassumption].
      intros x Hx. apply in_app_iff. left. exact Hx.
  - inv_ret H. exact Hrun.
Qed.

Lemma children_loop_covers remove l :
  Forall (fun c => forall s r c' s',
              remove c s = Ret (r, c') s' ->
              dir_bits_ok c = true -> covers (paths_of c) s s') l ->
  forall result s r l' s',
    forallb dir_bits_ok l = true ->
    children_loop remove l result s = Ret (r, l') s' ->
    covers (flat_map paths_of l) s s'.
Proof.
  induction 1 as [|c nxt Hc _ IH]; intros result s r l' s' Hok H;
    simpl in H.
  - inv_ret H. apply covers_refl.
  - simpl in Hok. apply andb_prop in Hok. destruct Hok as [Hc_ok Hnxt].
    inv_bind H. destruct a as [ok c'].
    apply Hc in Hrun; [|exact Hc_ok]. simpl. destruct ok.
    + eapply covers_trans; [exact Hrun|]. eapply IH; eassumption.
    + inv_bind H. destruct a as [r0 rest]. inv_ret H.
      eapply covers_trans; [exact Hrun|]. eapply IH; eassumption.
Qed.

Lemma remove_file_internal_covers f : forall s r f' s',
  remove_file_internal f s = Ret (r, f') s' ->
  dir_bits_ok f = true ->
  covers (paths_of f) s s'.
Proof.
  induction f as [n sz ty | n sz ty subdirs self b IH] using file_nested_ind;
    intros s r f' s' H Hok; simpl in H.
  - destruct (is_dir_bit ty); [discriminate|].
    apply remove_plain_covers in H. exact H.
  - simpl in Hok. apply andb_prop in Hok. destruct Hok as [Hbit Hok].
    rewrite Hbit in H. inv_bind H. destruct a as [result subdirs'].
    pose proof Hrun as Hres.
    eapply children_loop_result in Hres;
      [|apply Forall_forall; intros c _ s2 r2 c' s2' Hc;
        eapply remove_file_internal_result; eassumption].
    destruct Hres; subst.
    eapply children_loop_covers in Hrun; [|exact IH|exact Hok].
    simpl in H. inv_bind H. inv_bind Hrun0.
    pose proof (sys_covers _ _ _ _ Hrun1) as Hr. simpl in Hr.
    destruct a0 as [errno|].
    + inv_bind Hrun0. exfalso. eapply err_not_Ret. eassumption.
    + inv_ret Hrun0. inv_bind H. apply update_size_Ret in Hrun0.
      destruct Hrun0 as (? & ? & ? & ? & ? & ? & _ & _ & Es). subst.
      inv_ret H. simpl.
      eapply covers_incl; [|eapply covers_trans; eassumption].
      intros p [Hp | Hp]; apply in_app_iff; [right | left]; auto.
      left. exact Hp.
Qed.

Lemma readdir_loop_dir_bits build path ents :
  Forall (fun p => forall path s t s',
              build (snd p) path s = Ret (Some t) s' ->
              dir_bits_ok t = true) ents ->
  forall subdirs sz s subdirs' sz' s',
    forallb dir_bits_ok subdirs = true ->
    readdir_loop build path ents subdirs sz s = Ret (subdirs', sz') s' ->
    forallb dir_bits_ok subdirs' = true.
Proof.
  induction 1 as [|[d_name child] rest Hc _ IH];
    intros subdirs sz s subdirs' sz' s' Hok H; simpl in H.
  - inv_ret H. inversion H; subst. exact Hok.
  - destruct (is_dot_or_dotdot d_name); [eapply IH; eassumption|].
    destruct (concat_path path d_name) as [subpath|]; [|discriminate].
    inv_bind H. destruct a as [nf|].
    + apply Hc in Hrun. inv_bind H. eapply IH; [|exact H].
      simpl. rewrite Hrun, Hok. reflexivity.
    + inv_bind H. eapply IH; eassumption.
Qed.

Lemma build_tree_dir_bits e : forall path s t s',
  build_tree e path s = Ret (Some t) s' -> dir_bits_ok t = true.
Proof.
  induction e as [l | l ents IH] using fs_entry_nested_ind;
    intros path s t s' H; simpl in H; destruct l as [errno|st].
  - inv_bind H. exfalso. eapply err_not_Ret. eassumption.
  - destruct (S_ISDIR (st_mode st)) eqn:Ed; apply ret_Ret in H;
      destruct H as [E _]; inversion E; subst t; simpl; [|reflexivity].
    rewrite (S_ISDIR_type _ Ed). reflexivity.
  - inv_bind H. exfalso. eapply err_not_Ret. eassumption.
  - destruct (S_ISDIR (st_mode st)) eqn:Ed.
    + inv_bind H. destruct a as [subdirs sz].
      apply ret_Ret in H. destruct H as [E _]. inversion E; subst t.
      eapply readdir_loop_dir_bits in Hrun; [|exact IH|reflexivity].
      simpl. rewrite Hrun, (S_ISDIR_type _ Ed). reflexivity.
    + apply ret_Ret in H. destruct H as [E _]. inversion E; subst t.
      reflexivity.
Qed.

(** X15.  Nothing below a removed node is forgotten.  When
    [remove_file_internal] returns on a node of a tree as [build_tree]
    makes them, a system call was made on the name of the node and of every
    node below it. *)
Theorem remove_file_internal_reaches_all f s r f' s' :
  dir_bits_ok f = true ->
  remove_file_internal f s = Ret (r, f') s' ->
  covers (paths_of f) s s'.
Proof.
  intros Hok H. exact (remove_file_internal_covers f s r f' s' H Hok).
Qed.

Lemma remove_file_internal_reaches_all_witness :
  dir_bits_ok Examples.dir_c = true
  /\ remove_file_internal Examples.dir_c (Examples.boot Examples.permissive)
     = Ret (true, Directory "/r/c" 0 4 [] 0 (Some false))
           (mkState Examples.permissive [Unlink "/r/c/d"; Rmdir "/r/c"] []
                    false)
  /\ covers (paths_of Examples.dir_c) (Examples.boot Examples.permissive)
            (mkState Examples.permissive [Unlink "/r/c/d"; Rmdir "/r/c"] []
                     false).
Proof.
  assert (H1 : dir_bits_ok Examples.dir_c = true) by reflexivity.
  assert (H2 : remove_file_internal Examples.dir_c
                                    (Examples.boot Examples.permissive)
               = Ret (true, Directory "/r/c" 0 4 [] 0 (Some false))
                     (mkState Examples.permissive
                              [Unlink "/r/c/d"; Rmdir "/r/c"] [] false))
    by reflexivity.
  split; [exact H1|]. split; [exact H2|].
  exact (remove_file_internal_reaches_all _ _ _ _ _ H1 H2).
Defined.

Lemma remove_file_internal_pinned f s r f' s' :
  remove_file_internal f s = Ret (r, f') s' ->
  r = true
  /\ f' = match f with
          | File _ _ _ => f
          | Directory n sz ty l self b =>
              if is_dir_bit ty then Directory n self ty [] self (Some false)
              else f
          end.
Proof.
  intros H. split; [eapply remove_file_internal_result; eassumption|].
  destruct f as [n sz ty | n sz ty subdirs self b]; simpl in H.
  - destruct (is_dir_bit ty); [discriminate|].
    apply remove_plain_Ret in H. tauto.
  - destruct (is_dir_bit ty); [|apply remove_plain_Ret in H; tauto].
    inv_bind H. destruct a as [result subdirs'].
    eapply children_loop_result in Hrun.
    + destruct Hrun; subst. inv_bind H. inv_bind H.
      apply update_size_Ret in Hrun0.
      destruct Hrun0 as (n' & sz' & ty' & l & self' & b' & E & E' & _).
      inversion E; subst. apply ret_Ret in H. destruct H as [E' _].
      inversion E'; subst. simpl. rewrite Z.add_0_r. reflexivity.
    + apply Forall_forall. intros c _ s2 r2 c' s2' Hc.
      eapply remove_file_internal_result. eassumption.
Qed.

(** X16.  What [remove_file_internal] returns.  The call never returns
    false.  A node it did not descend into (no directory bit in [type])
    is returned as it was; a directory it descended into is returned
    without children, with [size] equal to [self_size] and the sorted flag
    cleared, its name, [type] and [self_size] as they were. *)
Theorem remove_file_internal_returns_true f s r f' s' :
  remove_file_internal f s = Ret (r, f') s' ->
  r = true
  /\ f' = match f with
          | File _ _ _ => f
          | Directory n sz ty l self b =>
              if is_dir_bit ty then Directory n self ty [] self (Some false)
              else f
          end.
Proof. exact (remove_file_internal_pinned f s r f' s'). Qed.

Lemma remove_file_internal_returns_true_witness :
  remove_file_internal Examples.dir_c (Examples.boot Examples.permissive)
  = Ret (true, Directory "/r/c" 0 4 [] 0 (Some false))
        (mkState Examples.permissive [Unlink "/r/c/d"; Rmdir "/r/c"] []
                 false)
  /\ true = true
  /\ Directory "/r/c" 0 4 [] 0 (Some false)
     = match Examples.dir_c with
       | File _ _ _ => Examples.dir_c
       | Directory n sz ty l self b =>
           if is_dir_bit ty then Directory n self ty [] self (Some false)
           else Examples.dir_c
       end.
Proof.
  assert (H : remove_file_internal Examples.dir_c
                                   (Examples.boot Examples.permissive)
              = Ret (true, Directory "/r/c" 0 4 [] 0 (Some false))
                    (mkState Examples.permissive
                             [Unlink "/r/c/d"; Rmdir "/r/c"] [] false))
    by reflexivity.
  split; [exact H|].
  exact (remove_file_internal_returns_true _ _ _ _ _ H).
Defined.

(** X17.  Removing any node, a directory with all below it included.  In a
    tree with the size invariant, when [remove_file] succeeds on a node,
    the node it leaves at [f->parent] is the parent without that child,
    with [size] lower by the size the node had, under the same chain of
    ancestors, each with [size] lower by as much; the other children of
    every ancestor are the values they were. *)
Theorem remove_node_sizes f ctx s p s' :
  size_ok (root_of f ctx) = true ->
  remove_file (f, ctx) s = Ret (true, p) s' ->
  p = after_unlink (size f) ctx.
Proof.
  intros Hok H. rewrite root_of_ok in Hok. apply andb_prop in Hok.
  destruct Hok as [_ Hctx].
  exact (remove_file_shrinks _ _ _ _ _ Hctx H).
Qed.

Lemma remove_node_sizes_witness :
  size_ok (root_of Examples.dir_c [Examples.frame_r]) = true
  /\ remove_file MoreExamples.at_c (Examples.boot Examples.permissive)
     = Ret (true,
            Some (Directory "/r" 300 4 [Examples.file_b; Examples.file_a]
                            0 (Some false), []))
           (mkState Examples.permissive [Unlink "/r/c/d"; Rmdir "/r/c"] []
                    false)
  /\ Some (Directory "/r" 300 4 [Examples.file_b; Examples.file_a]
                     0 (Some false), [])
     = after_unlink 300 [Examples.frame_r].
Proof.
  assert (H1 : size_ok (root_of Examples.dir_c [Examples.frame_r]) = true)
    by reflexivity.
  assert (H2 : remove_file MoreExamples.at_c
                           (Examples.boot Examples.permissive)
               = Ret (true,
                      Some (Directory "/r" 300 4
                                      [Examples.file_b; Examples.file_a]
                                      0 (Some false), []))
                     (mkState Examples.permissive
                              [Unlink "/r/c/d"; Rmdir "/r/c"] [] false))
    by reflexivity.
  split; [exact H1|]. split; [exact H2|].
  exact (remove_node_sizes _ _ _ _ _ H1 H2).
Defined.

(* ===================================================================== *)
(** * Further properties of the session *)
(* ===================================================================== *)

(** X18.  The sort flag tells the truth.  In a session on a tree that
    [build_tree] returned, in the tree around every node the loop displays,
    every directory whose [subdirs_sorted] flag is set has its children in
    descending order of size: a deletion clears the flag of every directory
    whose children or whose children's sizes it changed. *)
Theorem session_sort_flags e path s0 t s1 input d up :
  build_tree e path s0 = Ret (Some t) s1 ->
  displays (t, []) input s1 (d, up) ->
  cache_ok (root_of d up) = true.
Proof.
  intros Hb Hd. apply (displays_cache_ok _ _ _ _ Hd).
  exact (build_tree_cache_ok _ _ _ _ _ Hb).
Qed.

Lemma session_sort_flags_witness :
  build_tree Examples.fixture "/r" (Examples.boot Examples.permissive)
  = Ret (Some Examples.root_dir) (Examples.boot Examples.permissive)
  /\ displays (Examples.root_dir, []) ["/rm a"%string]
              (Examples.boot Examples.permissive)
              (Directory "/r" 500 4 [Examples.dir_c; Examples.file_b] 0
                         (Some true), [])
  /\ cache_ok (root_of (Directory "/r" 500 4
                                  [Examples.dir_c; Examples.file_b] 0
                                  (Some true)) []) = true.
Proof.
  pose (s0 := Examples.boot Examples.permissive).
  pose (s1 := mkState Examples.permissive [Unlink "/r/a"] [] false).
  assert (H1 : build_tree Examples.fixture "/r" s0
               = Ret (Some Examples.root_dir) s0) by reflexivity.
  assert (H2 : displays (Examples.root_dir, []) ["/rm a"%string] s0
                        (Directory "/r" 500 4
                                   [Examples.dir_c; Examples.file_b] 0
                                   (Some true), [])).
  { apply (displays_later _ _ _ _
             (Directory "/r" 600 4
                        [Examples.dir_c; Examples.file_b; Examples.file_a]
                        0 (Some true), []) s0
             (Directory "/r" 500 4 [Examples.dir_c; Examples.file_b] 0
                        (Some false), []) s1).
    - reflexivity.
    - reflexivity.
    - apply (displays_now _ _ _ _ s1). reflexivity. }
  split; [exact H1|]. split; [exact H2|].
  exact (session_sort_flags _ _ _ _ _ _ _ _ H1 H2).
Defined.

(** X19.  The value [main] returns.  When [main] returns, it returns 0 or
    1, and 1 exactly when the number of arguments is wrong ([argc] is
    neither 1 nor 2). *)
Theorem main_return_value argc open_dot base_path disk input s code s' :
  main argc open_dot base_path disk input s = Ret code s' ->
  (code = 0 \/ code = 1)
  /\ (code = 1 <-> ((argc =? 1) || (argc =? 2))%bool = false).
Proof.
  intros H. split.
  - exact (main_returns_0_or_1 _ _ _ _ _ _ _ _ H).
  - exact (main_returns_1_iff_bad_argc _ _ _ _ _ _ _ _ H).
Qed.

Lemma main_return_value_witness :
  main 3 None "/r" Examples.fixture [] (Examples.boot Examples.permissive)
  = Ret 1 (mkState Examples.permissive []
                   ["[ERROR] incorrect arguments"%string] false)
  /\ (1 = 0 \/ 1 = 1)
  /\ (1 = 1 <-> ((3 =? 1) || (3 =? 2))%bool = false).
Proof.
  assert (H : main 3 None "/r" Examples.fixture []
                   (Examples.boot Examples.permissive)
              = Ret 1 (mkState Examples.permissive []
                               ["[ERROR] incorrect arguments"%string] false))
    by reflexivity.
  split; [exact H|].
  exact (main_return_value _ _ _ _ _ _ _ _ H).
Defined.

(** X21.  After the root is removed.  When [/rm] resolves to the root and
    [remove_file] returns, the loop writes the message about the root and
    leaves with [exit_code] 0, the root block has been freed, and
    [deallocate_files(tree)], which [main] runs next, reads and frees it
    again. *)
Theorem root_removal_use_after_free
        cur cur' line arg rest t s s0 s1 r p s' :
  print_node cur s = Ret cur' s0 ->
  begins_with_slash line = true ->
  strsep line = ("/rm"%string, arg) ->
  to_remove cur' arg s0 = Ret (Some (t, [])) s1 ->
  remove_file (t, []) s1 = Ret (r, p) s' ->
  main_loop cur (line :: rest) s = Ret 0 (logged MSG_ROOT_REMOVED s')
  /\ st_tree_freed s' = true
  /\ (exit_code <- main_loop cur (line :: rest) ;;
      deallocate_files ;;; ret exit_code) s
     = Fault UseAfterFree.
Proof.
  intros Hp Hb Hs Ht Hr. split; [|split].
  - exact (rm_root_ends_session _ _ _ _ rest _ _ _ _ _ _ _ Hp Hb Hs Ht Hr).
  - exact (remove_file_root_freed _ _ _ _ _ Hr).
  - exact (rm_root_use_after_free _ _ _ _ rest _ _ _ _ _ _ _
                                  Hp Hb Hs Ht Hr).
Qed.

Lemma root_removal_use_after_free_witness :
  print_node (File "/r" 100 8, []) (Examples.boot Examples.permissive)
  = Ret (File "/r" 100 8, []) (Examples.boot Examples.permissive)
  /\ begins_with_slash "/rm" = true
  /\ strsep "/rm" = ("/rm"%string, None)
  /\ to_remove (File "/r" 100 8, []) None (Examples.boot Examples.permissive)
     = Ret (Some (File "/r" 100 8, [])) (Examples.boot Examples.permissive)
  /\ remove_file (File "/r" 100 8, []) (Examples.boot Examples.permissive)
     = Ret (true, None) (mkState Examples.permissive [Unlink "/r"] [] true)
  /\ main_loop (File "/r" 100 8, []) ["/rm"%string]
               (Examples.boot Examples.permissive)
     = Ret 0 (logged MSG_ROOT_REMOVED
                     (mkState Examples.permissive [Unlink "/r"] [] true))
  /\ st_tree_freed (mkState Examples.permissive [Unlink "/r"] [] true) = true
  /\ (exit_code <- main_loop (File "/r" 100 8, []) ["/rm"%string] ;;
      deallocate_files ;;; ret exit_code)
       (Examples.boot Examples.permissive)
     = Fault UseAfterFree.
Proof.
  pose (s0 := Examples.boot Examples.permissive).
  pose (root := File "/r" 100 8).
  assert (H1 : print_node (root, []) s0 = Ret (root, []) s0) by reflexivity.
  assert (H2 : begins_with_slash "/rm" = true) by reflexivity.
  assert (H3 : strsep "/rm" = ("/rm"%string, None)) by reflexivity.
  assert (H4 : to_remove (root, []) None s0 = Ret (Some (root, [])) s0)
    by reflexivity.
  assert (H5 : remove_file (root, []) s0
               = Ret (true, None)
                     (mkState Examples.permissive [Unlink "/r"] [] true))
    by reflexivity.
  split; [exact H1|]. split; [exact H2|]. split; [exact H3|].
  split; [exact H4|]. split; [exact H5|].
  exact (root_removal_use_after_free _ _ _ _ [] _ _ _ _ _ _ _
                                     H1 H2 H3 H4 H5).
Defined.

Lemma get_file_name_loop_suffix p : forall pre prev r,
  (exists q, (pre ++ p = q ++ r)%string) ->
  exists q, (pre ++ p = q ++ get_file_name_loop p prev r)%string.
Proof.
  induction p as [|c p IH]; intros pre prev r Hr; simpl; [exact Hr|].
  assert (E : (pre ++ String c p
               = (pre ++ String c EmptyString) ++ p)%string).
  { rewrite string_app_assoc. reflexivity. }
  destruct (Ascii.eqb c slash).
  - rewrite E. apply IH. rewrite <- E. exact Hr.
  - rewrite E. apply IH. rewrite <- E. destruct prev; [|exact Hr].
    exists pre. reflexivity.
Qed.

(** X22.  [get_file_name] points into its argument: what it returns is a
    suffix of the path. *)
Theorem get_file_name_suffix path :
  exists q, path = (q ++ get_file_name path)%string.
Proof.
  unfold get_file_name.
  destruct (get_file_name_loop_suffix path EmptyString false path) as [q E].
  - exists EmptyString. reflexivity.
  - exists q. exact E.
Qed.

Lemma children_loop_trace remove l : forall result s r l' s',
  Forall (fun c => forall s, touches_only (fun _ => True) s (remove c s)) l ->
  children_loop remove l result s = Ret (r, l') s' ->
  exists calls, st_trace s' = st_trace s ++ calls.
Proof.
  intros result s r l' s' Hall H.
  pose proof (touches_only_children_loop (fun _ => True) remove l Hall
                                         result s) as Ht.
  rewrite H in Ht. destruct Ht as (calls & E & _). exists calls. exact E.
Qed.

(** X23.  A directory goes last.  When [remove_file_internal] returns
    from a directory it descended into, the last system call it made is
    [rmdir] on that directory, after all the calls for what is below. *)
Theorem remove_directory_last_call n sz ty subdirs self b s r d s' :
  is_dir_bit ty = true ->
  remove_file_internal (Directory n sz ty subdirs self b) s = Ret (r, d) s' ->
  exists calls, st_trace s' = st_trace s ++ calls ++ [Rmdir n].
Proof.
  intros Hbit H. simpl in H. rewrite Hbit in H.
  inv_bind H. destruct a as [result subdirs'].
  pose proof Hrun as Hres.
  eapply children_loop_result in Hres;
    [|apply Forall_forall; intros c _ s2 r2 c' s2' Hc;
      eapply remove_file_internal_result; eassumption].
  destruct Hres; subst.
  eapply children_loop_trace in Hrun.
  - destruct Hrun as [calls Ec]. exists calls.
    simpl in H. inv_bind H. inv_bind Hrun. destruct a0 as [errno|].
    + inv_bind Hrun. exfalso. eapply err_not_Ret. eassumption.
    + inv_ret Hrun. inv_bind H. apply update_size_Ret in Hrun.
      destruct Hrun as (? & ? & ? & ? & ? & ? & _ & _ & Es). subst.
      inv_ret H. unfold sys in Hrun0. inversion Hrun0; subst. simpl.
      rewrite Ec, app_assoc. reflexivity.
  - apply Forall_forall. intros c _ s2.
    eapply touches_only_weaken; [|apply remove_file_internal_touches].
    auto.
Qed.

Lemma remove_directory_last_call_witness :
  is_dir_bit 4 = true
  /\ remove_file_internal Examples.dir_c (Examples.boot Examples.permissive)
     = Ret (true, Directory "/r/c" 0 4 [] 0 (Some false))
           (mkState Examples.permissive [Unlink "/r/c/d"; Rmdir "/r/c"] []
                    false)
  /\ exists calls,
      st_trace (mkState Examples.permissive [Unlink "/r/c/d"; Rmdir "/r/c"]
                        [] false)
      = st_trace (Examples.boot Examples.permissive) ++ calls
        ++ [Rmdir "/r/c"].
Proof.
  assert (H1 : is_dir_bit 4 = true) by reflexivity.
  assert (H2 : remove_file_internal Examples.dir_c
                                    (Examples.boot Examples.permissive)
               = Ret (true, Directory "/r/c" 0 4 [] 0 (Some false))
                     (mkState Examples.permissive
                              [Unlink "/r/c/d"; Rmdir "/r/c"] [] false))
    by reflexivity.
  split; [exact H1|]. split; [exact H2|].
  exact (remove_directory_last_call _ _ _ _ _ _ _ _ _ _ H1 H2).
Defined.

(** X24.  Removing a socket or a block device.  [build_tree] makes a
    [struct file] for such an entry, with [type] 12 or 6; both have the bit
    that [remove_file_internal] tests with [&], so the removal treats the
    node as a [struct directory] and reads [subdirs] past the end of the
    block. *)
Theorem remove_socket_or_block_device st dir path s :
  Z.land (st_mode st) S_IFMT = 49152 \/ Z.land (st_mode st) S_IFMT = 24576 ->
  exists ty,
    build_tree (FsEntry (inr st) dir) path s
    = Ret (Some (File path (st_size st) ty)) s
    /\ forall ctx s1,
        remove_file (File path (st_size st) ty, ctx) s1
        = Fault OutOfBoundsRead.
Proof.
  intros Hm. simpl. unfold S_ISDIR.
  destruct Hm as [Hm | Hm]; rewrite Hm; simpl; eexists;
    (split; [reflexivity|]); intros ctx s1; reflexivity.
Qed.

Lemma remove_socket_or_block_device_witness :
  (Z.land (st_mode MoreExamples.socket_stat) S_IFMT = 49152
   \/ Z.land (st_mode MoreExamples.socket_stat) S_IFMT = 24576)
  /\ exists ty,
      build_tree (FsEntry (inr MoreExamples.socket_stat) None) "/r/s"
                 (Examples.boot Examples.permissive)
      = Ret (Some (File "/r/s" (st_size MoreExamples.socket_stat) ty))
            (Examples.boot Examples.permissive)
      /\ forall ctx s1,
          remove_file (File "/r/s" (st_size MoreExamples.socket_stat) ty,
                       ctx) s1
          = Fault OutOfBoundsRead.
Proof.
  assert (H : Z.land (st_mode MoreExamples.socket_stat) S_IFMT = 49152
              \/ Z.land (st_mode MoreExamples.socket_stat) S_IFMT = 24576)
    by (left; reflexivity).
  split; [exact H|].
  exact (remove_socket_or_block_device MoreExamples.socket_stat None "/r/s"
                                       (Examples.boot Examples.permissive) H).
Defined.
